(** * apostrophe-elasticsearch: the document-to-index synchronisation engine

    A shallow embedding of [index.js] (the module's [construct] function)
    and the properties of it that the specification states.

    Conventions of the embedding.
    - A JavaScript string is a Rocq [string]; one character stands for one
      UTF-16 code unit below 256 (the Latin-1 range), so [String.length] is
      the JavaScript [.length].
    - JavaScript values are the trees of [value]: the JSON shapes and
      functions, which are opaque; numbers are integers (no fractions, NaN
      or infinities), symbols do not occur.  Objects are plain objects,
      given by their own enumerable properties as association lists in
      insertion order; a well-formed object has no key twice.  Their
      prototype is [Object.prototype]: reading a key that is not an own
      property answers the member of [Object.prototype] of that name
      ([Obj.get]), and assigning to [__proto__] adds no own property
      ([Obj.put]).
    - A document is a record with its mandatory string identifier [_id] and
      its other properties.
    - Callbacks of the form [callback(err)] are results of type
      [option error].  A JavaScript [throw] is the outcome [Throw]: the
      statements after it do not run.  The stages of the reindex task run
      in callbacks of the search engine client and of the document store,
      so an exception raised in one of them is not handed to any callback
      of the task: it ends the run where it is raised. *)

From Stdlib Require Import ZArith Ascii String DecimalString.
From stdpp Require Import base option list sorting strings gmap.

Local Open Scope string_scope.
Set Warnings "-register-all".


(** ** Strings *)

Module Str.

Definition code (c : ascii) : nat := nat_of_ascii c.

(** [String.prototype.toLowerCase] on one code unit below 256: the
    upper-case letters there are A-Z and U+00C0..U+00DE without U+00D7. *)
Definition lower_char (c : ascii) : ascii :=
  let n := code c in
  if (((65 <=? n) && (n <=? 90)) ||
      ((192 <=? n) && (n <=? 222) && negb (n =? 215)))%nat
  then ascii_of_nat (n + 32) else c.

Fixpoint toLowerCase (s : string) : string :=
  match s with
  | EmptyString => EmptyString
  | String c s' => String (lower_char c) (toLowerCase s')
  end.

(** The character class [a-z]. *)
Definition is_az (c : ascii) : bool := ((97 <=? code c) && (code c <=? 122))%nat.

Fixpoint keep (p : ascii -> bool) (s : string) : string :=
  match s with
  | EmptyString => EmptyString
  | String c s' => if p c then String c (keep p s') else keep p s'
  end.

Fixpoint all (p : ascii -> bool) (s : string) : bool :=
  match s with
  | EmptyString => true
  | String c s' => p c && all p s'
  end.

(** [s.replace(/[^a-z]/g, '')] *)
Definition strip_non_az (s : string) : string := keep is_az s.

(** [s.replace(/-draft$/, '')]: the only place the pattern can match is
    the suffix of length six. *)
Fixpoint strip_draft (s : string) : string :=
  if String.eqb s "-draft" then EmptyString
  else match s with
       | EmptyString => EmptyString
       | String c s' => String c (strip_draft s')
       end.

(** [s.split(/\n/)] *)
Fixpoint split_lines (s : string) : list string :=
  match s with
  | EmptyString => [EmptyString]
  | String c s' =>
      if Ascii.eqb c "010"%char then EmptyString :: split_lines s'
      else match split_lines s' with
           | h :: t => String c h :: t
           | [] => [String c EmptyString]
           end
  end.

(** [s.substr(0, n)] *)
Definition substr0 (n : nat) (s : string) : string := String.substring 0 n s.

Fixpoint join (sep : string) (l : list string) : string :=
  match l with
  | [] => EmptyString
  | [x] => x
  | x :: l' => x ++ sep ++ join sep l'
  end.

(** [a > b] on strings, by code units. *)
Definition gtb (a b : string) : bool := negb (String.leb a b).

End Str.

(** ** JavaScript values *)

Inductive value : Type :=
| VUndefined
| VNull
| VBool (b : bool)
| VNum (n : Z)
| VStr (s : string)
| VArr (items : list value)
| VObj (props : list (string * value))
| VFun (name : string).

(** A JavaScript object used as a record or map: keys in insertion order. *)
Abbreviation obj := (list (string * value)).

Inductive jstype : Type :=
  TUndefined | TObject | TBoolean | TNumber | TString | TFunction.

Global Instance jstype_eq_dec : EqDecision jstype.
Proof. solve_decision. Defined.

(** [typeof v]; note that [typeof null] is ['object']. *)
Definition typeof (v : value) : jstype :=
  match v with
  | VUndefined => TUndefined
  | VNull => TObject
  | VBool _ => TBoolean
  | VNum _ => TNumber
  | VStr _ => TString
  | VArr _ => TObject
  | VObj _ => TObject
  | VFun _ => TFunction
  end.

(** [Array.isArray(v)] *)
Definition isArray (v : value) : bool :=
  match v with VArr _ => true | _ => false end.

(** Truthiness: what [if (v)], [!v], [v || d] and [v && w] test. *)
Definition truthy (v : value) : bool :=
  match v with
  | VUndefined | VNull => false
  | VBool b => b
  | VNum n => negb (n =? 0)%Z
  | VStr s => negb (String.eqb s EmptyString)
  | VArr _ | VObj _ | VFun _ => true
  end.

(** [a[i]] on an array, [undefined] out of range. *)
Definition item (l : list value) (i : nat) : value :=
  match l !! i with Some v => v | None => VUndefined end.

Module Obj.

(** The own property [k] of [o], if there is one. *)
Fixpoint lookup (o : obj) (k : string) : option value :=
  match o with
  | [] => None
  | (k', v) :: o' => if String.eqb k' k then Some v else lookup o' k
  end.

(** The members of [Object.prototype] that are functions. *)
Definition prototype_functions : list string :=
  ["constructor"; "__defineGetter__"; "__defineSetter__"; "hasOwnProperty";
   "__lookupGetter__"; "__lookupSetter__"; "isPrototypeOf";
   "propertyIsEnumerable"; "toString"; "valueOf"; "toLocaleString"].

(** What [Object.prototype] answers for the key [k]: one of its functions,
    for the accessor [__proto__] the prototype itself (an object none of
    whose members is enumerable), and [undefined] for any other key. *)
Definition inherited (k : string) : value :=
  if String.eqb k "__proto__" then VObj []
  else if bool_decide (k ∈ prototype_functions) then VFun k
  else VUndefined.

(** [o[k]]: the own property, or else what the prototype answers. *)
Definition get (o : obj) (k : string) : value :=
  match lookup o k with Some v => v | None => inherited k end.

(** [o[k] = v]: an existing key keeps its place, a new one goes last. *)
Fixpoint set (o : obj) (k : string) (v : value) : obj :=
  match o with
  | [] => [(k, v)]
  | (k', v') :: o' =>
      if String.eqb k' k then (k', v) :: o' else (k', v') :: set o' k v
  end.

(** [o[k] = v] on an object made by the literal [{}] and written only by
    such assignments: the key [__proto__] is the accessor of
    [Object.prototype], whose setter takes an object as the new prototype,
    ignores any other value and adds no own property; every other member
    of [Object.prototype] is writable, so the assignment adds or updates
    an own property. *)
Definition put (o : obj) (k : string) (v : value) : obj :=
  if String.eqb k "__proto__" then o else set o k v.

(** [delete o[k]] *)
Fixpoint delete (o : obj) (k : string) : obj :=
  match o with
  | [] => []
  | (k', v') :: o' =>
      if String.eqb k' k then delete o' k else (k', v') :: delete o' k
  end.

(** [_.keys(o)] *)
Definition keys (o : obj) : list string := map fst o.

End Obj.

(** ** [JSON.stringify] *)

Module JSON.

Definition hex_digit (n : nat) : ascii :=
  if (n <? 10)%nat then ascii_of_nat (48 + n) else ascii_of_nat (87 + n).

(** One code unit inside a quoted string. *)
Definition escape_char (c : ascii) : string :=
  let n := Str.code c in
  if (n =? 34)%nat then String "\"%char (String c EmptyString)
  else if (n =? 92)%nat then "\\"
  else if (n =? 8)%nat then "\b"
  else if (n =? 9)%nat then "\t"
  else if (n =? 10)%nat then "\n"
  else if (n =? 12)%nat then "\f"
  else if (n =? 13)%nat then "\r"
  else if (n <? 32)%nat then
    "\u00" ++ String (hex_digit (n / 16)) (String (hex_digit (n mod 16)) EmptyString)
  else String c EmptyString.

Fixpoint escape (s : string) : string :=
  match s with
  | EmptyString => EmptyString
  | String c s' => escape_char c ++ escape s'
  end.

Definition quote (s : string) : string :=
  String "034"%char (escape s ++ String "034"%char EmptyString).

Definition number (n : Z) : string := NilZero.string_of_int (Z.to_int n).

(** [JSON.stringify(v)]; [None] is the JavaScript result [undefined],
    which is what [undefined] and functions give; inside an array they
    give [null], and as members of an object they are left out. *)
Fixpoint stringify (v : value) : option string :=
  match v with
  | VUndefined | VFun _ => None
  | VNull => Some "null"
  | VBool b => Some (if b then "true" else "false")
  | VNum n => Some (number n)
  | VStr s => Some (quote s)
  | VArr l =>
      let fix items (l : list value) : list string :=
        match l with
        | [] => []
        | x :: l' =>
            match stringify x with Some s => s | None => "null" end :: items l'
        end in
      Some ("[" ++ Str.join "," (items l) ++ "]")
  | VObj o =>
      let fix members (o : obj) : list string :=
        match o with
        | [] => []
        | (k, x) :: o' =>
            match stringify x with
            | Some s => (quote k ++ ":" ++ s) :: members o'
            | None => members o'
            end
        end in
      Some ("{" ++ Str.join "," (members o) ++ "}")
  end.

End JSON.

(** ** Documents, configuration and the host *)

(** [m[k]] on an object whose values all have one type. *)
Fixpoint assoc {A} (m : list (string * A)) (k : string) : option A :=
  match m with
  | [] => None
  | (k', v) :: m' => if String.eqb k' k then Some v else assoc m' k
  end.

(** A document of the store: [doc._id] is always a string. *)
Record doc : Type := Doc {
  doc_id : string;
  doc_props : obj;
}.

(** [doc[field]] *)
Definition doc_get (d : doc) (field : string) : value :=
  if String.eqb field "_id" then VStr (doc_id d) else Obj.get (doc_props d) field.

(** An error handed to a callback stands for an [Error] object, which is
    truthy; a callback without error is [None]. *)
Definition error : Type := string.

(** [self.options]: [None] is an option that was not given. *)
Record options : Type := Options {
  opt_fields : option (list string);
  opt_addFields : option (list string);
  opt_baseName : option string;
  opt_indexSettings : option obj;
  opt_analyzer : value;
  opt_localeIndexSettings : option (list (string * obj));
  opt_analyzers : option obj;
  opt_batchSize : option nat;
}.

(** One bulk command is two consecutive elements of the array handed to
    [client.bulk]: the action descriptor [{index: {_index, _type, _id}}]
    and the body. *)
Inductive command : Type :=
| CIndex (_index _type _id : string)
| CBody (body : obj).

(** The [args] object handed to [client.bulk]: [{body: ...}] or
    [{body: ..., refresh: ...}]; [None] is a [refresh] key that is not
    there. *)
Record bulk_args : Type := BulkArgs {
  args_body : list command;
  args_refresh : option string;
}.

(** Calls to the collaborators, in the order they are made. *)
Inductive event : Type :=
| EvVerbose (s : string)
| EvProgress (reindexed count : nat)
| EvLock (name : string)
| EvUnlock (name : string)
| EvCatIndices
| EvDelete (indexes : list string)
| EvCreate (index : string) (settings properties : obj)
| EvCount
| EvFind (last : string) (limit : nat)
| EvBulk (args : bulk_args)
| EvRefresh (indexes : list string).

(** The host [self.apos], the document store and the search engine client:
    what each call answers.  The store does not change during a run. *)
Record host : Type := Host {
  self_options : options;
  shortName : string;
  (** [_.keys(apos.modules['apostrophe-workflow'].locales)], [None] without
      the workflow module *)
  workflow_locales : option (list string);
  store : list doc;
  db_count : option error;
  db_find : string -> option error;
  lock_acquire : string -> option error;
  cat_indices : error + option string;
  indices_delete : list string -> option error;
  indices_create : string -> option error;
  client_bulk : bulk_args -> option error;
  indices_refresh : list string -> option error;
}.

(** The mutable part of [self] and the trace of collaborator calls.  Every
    key of [indexNamesSeen] ends in a name that contains [aposdocs], so the
    lookups never meet a property inherited from [Object.prototype]. *)
Record state : Type := State {
  indexNamesSeen : gmap string string;
  trace : list event;
}.

(** ** Outcomes and the state monad of the module *)

Inductive outcome (A : Type) : Type :=
| Ret (a : A)
| Throw (msg : string)
| OutOfFuel.
Arguments Ret {A} a.
Arguments Throw {A} msg.
Arguments OutOfFuel {A}.

Definition M (A : Type) : Type := state -> outcome A * state.

Definition ret {A} (a : A) : M A := fun st => (Ret a, st).

Definition throw {A} (msg : string) : M A := fun st => (Throw msg, st).

Definition bind {A B} (c : M A) (k : A -> M B) : M B :=
  fun st =>
    match c st with
    | (Ret a, st') => k a st'
    | (Throw msg, st') => (Throw msg, st')
    | (OutOfFuel, st') => (OutOfFuel, st')
    end.

Notation "x <- c ;; k" := (bind c (fun x => k))
  (at level 100, c at next level, right associativity).
Notation "c ;;; k" := (bind c (fun _ => k))
  (at level 100, right associativity).

(** A computation that neither reads nor writes [self] and calls no
    collaborator. *)
Definition lift {A} (o : outcome A) : M A := fun st => (o, st).

Definition obind {A B} (o : outcome A) (k : A -> outcome B) : outcome B :=
  match o with
  | Ret a => k a
  | Throw msg => Throw msg
  | OutOfFuel => OutOfFuel
  end.

(** [_.each(l, f)] where [f] updates an accumulator and may raise. *)
Fixpoint each {A B} (f : B -> A -> outcome B) (l : list A) (acc : B) : outcome B :=
  match l with
  | [] => Ret acc
  | x :: l' => obind (f acc x) (each f l')
  end.

Definition emit (e : event) : M unit :=
  fun st => (Ret tt, State (indexNamesSeen st) (trace st ++ [e])%list).

(** [_.each(l, f)] where [f] pushes onto an accumulator. *)
Fixpoint eachM {A B} (f : B -> A -> M B) (l : list A) (acc : B) : M B :=
  match l with
  | [] => ret acc
  | x :: l' => acc' <- f acc x ;; eachM f l' acc'
  end.

(** [_.map(l, f)] with an effectful [f]. *)
Fixpoint mapM {A B} (f : A -> M B) (l : list A) : M (list B) :=
  match l with
  | [] => ret []
  | x :: l' => y <- f x ;; ys <- mapM f l' ;; ret (y :: ys)
  end.

(** [async.series(tasks, callback)]: the tasks one after the other, the
    first error ends the series and is handed to [callback].  A task that
    raises ends the run: neither the next task nor [callback] is
    called. *)
Fixpoint series (tasks : list (M (option error))) : M (option error) :=
  match tasks with
  | [] => ret None
  | t :: tasks' =>
      r <- t ;;
      match r with
      | Some err => ret (Some err)
      | None => series tasks'
      end
  end.

(** [async.eachSeries(coll, iteratee, callback)] *)
Definition eachSeries {A} (coll : list A) (iteratee : A -> M (option error))
  : M (option error) :=
  series (map iteratee coll).

(** ** [_.merge] (lodash 4)

    [merge_value objValue srcValue] is the value that ends up under a key
    whose destination holds [objValue] ([None]: no such key) and whose
    source holds [srcValue]: arrays and plain objects are merged
    recursively, [undefined] in the source leaves the destination as it
    is, and every other source value (a function too) is assigned.  A
    plain object merged onto an array would attach named properties to the
    array object, which a JSON tree cannot hold; the model keeps the array
    there.  An array merged onto an object starts from an empty array (an
    object with a numeric [length] would be copied as an array
    instead). *)
Fixpoint merge_value (objValue : option value) (srcValue : value) {struct srcValue}
  : value :=
  match srcValue with
  | VArr sa =>
      let da := match objValue with Some (VArr da) => da | _ => [] end in
      VArr ((fix go (da sa : list value) {struct sa} : list value :=
               match sa with
               | [] => da
               | s :: sa' =>
                   match da with
                   | [] => merge_value None s :: go [] sa'
                   | d :: da' => merge_value (Some d) s :: go da' sa'
                   end
               end) da sa)
  | VObj so =>
      match objValue with
      | Some (VArr da) => VArr da
      | _ =>
          let do := match objValue with Some (VObj do) => do | _ => [] end in
          VObj ((fix go (acc so : obj) {struct so} : obj :=
                   match so with
                   | [] => acc
                   | (k, s) :: so' =>
                       go (Obj.set acc k (merge_value (Obj.lookup acc k) s)) so'
                   end) do so)
      end
  | VUndefined =>
      match objValue with Some d => d | None => VUndefined end
  | _ => srcValue
  end.

(** One step of [baseMerge]: the key [k] of the source. *)
Definition merge_key (object : obj) (kv : string * value) : obj :=
  Obj.set object kv.1 (merge_value (Obj.lookup object kv.1) kv.2).

(** [_.merge(object, source)] on two plain objects; [object] is updated. *)
Definition merge (object source : obj) : obj :=
  match merge_value (Some (VObj object)) (VObj source) with
  | VObj r => r
  | _ => object
  end.

Section Module.

Variable apos : host.

Definition opts : options := self_options apos.

(** [construct]: [self.fields] *)
Definition fields : list string :=
  (match opt_fields opts with
   | Some fs => fs
   | None => ["title"; "tags"; "type"; "lowSearchText"; "highSearchText"]
   end ++ match opt_addFields opts with Some fs => fs | None => [] end)%list.

(** [connect]: [self.baseName] and [self.docIndex] *)
Definition baseName : string :=
  match opt_baseName opts with
  | Some s => if String.eqb s EmptyString then shortName apos else s
  | None => shortName apos
  end.

Definition docIndex : string := Str.toLowerCase baseName ++ "aposdocs".

(** *** Locale index namer *)

Definition collision_message (locale seen : string) : string :=
  "apostrophe-elasticsearch: the locale names " ++ locale ++ " and " ++ seen
  ++ " cannot be distinguished purely by their lowercased letters. elasticsearch allows no other characters in index names.".

Definition getLocaleIndex (locale : string) : M string :=
  fun st =>
    let locale := Str.toLowerCase locale in
    let indexName := docIndex ++ Str.strip_non_az locale in
    let seen := indexNamesSeen st !! indexName in
    match seen with
    | Some s =>
        if negb (String.eqb s EmptyString) && negb (String.eqb s locale)
        then (Throw (collision_message locale s), st)
        else (Ret indexName, State (<[indexName := locale]> (indexNamesSeen st)) (trace st))
    | None =>
        (Ret indexName, State (<[indexName := locale]> (indexNamesSeen st)) (trace st))
    end.

(** [getLocaleIndex] applied to a value that need not be a string: any
    other truthy value has no [toLowerCase] method. *)
Definition getLocaleIndex_of (locale : value) : M string :=
  match locale with
  | VStr s => getLocaleIndex s
  | _ => throw "TypeError: locale.toLowerCase is not a function"
  end.

(** [self.getLocales] *)
Definition getLocales : list string :=
  match workflow_locales apos with
  | Some ls => ls
  | None => ["default"]
  end.

(** *** Field projector *)

Definition shadow (field : string) : string := field ++ "ESExact".

(** The test of lines 52-59: is the value worth indexing. *)
Definition good (v : value) : bool :=
  if isArray v then
    match v with
    | VArr l => if decide (typeof (item l 0) = TObject) then false else true
    | _ => false
    end
  else if decide (typeof v = TObject) then false else true.

(** The TypeError of reading [.length] of [undefined], in the words of
    the engines of the time of the module (later ones word it
    differently). *)
Definition length_of_undefined : string :=
  "TypeError: Cannot read property 'length' of undefined".

(** The test of line 65.  For a truthy value that [JSON.stringify] answers
    [undefined] for, which is a function, reading [.length] raises. *)
Definition small (v : value) : outcome bool :=
  if negb (truthy v) then Ret true
  else match JSON.stringify v with
       | Some s => Ret (String.length s <? 4096)%nat
       | None => Throw length_of_undefined
       end.

(** The body of the [_.each(self.fields, ...)] loop. *)
Definition project_field (d : doc) (body : obj) (field : string) : outcome obj :=
  let v := doc_get d field in
  if good v then
    let body := Obj.put body field v in
    obind (small v) (fun s =>
      if s then Ret (Obj.put body (shadow field) v) else Ret body)
  else Ret body.

(** Lines 49-72: the body, with [_id] deleted at the end. *)
Definition project (d : doc) : outcome obj :=
  obind (each (project_field d) fields [])
        (fun body => Ret (Obj.delete body "_id")).

(** *** Bulk command builder *)

Definition push_locale (d : doc) (body : obj)
    (commands : list command) (locale : string) : M (list command) :=
  _index <- getLocaleIndex locale ;;
  ret (commands ++ [CIndex _index "aposDoc" (doc_id d); CBody body])%list.

Definition getBulkIndexCommandsForDoc (d : doc) : M (list command) :=
  let commands := [] in
  body <- lift (project d) ;;
  let workflowLocale := doc_get d "workflowLocale" in
  if truthy workflowLocale then
    _index <- getLocaleIndex_of workflowLocale ;;
    ret (commands ++ [CIndex _index "aposDoc" (doc_id d); CBody body])%list
  else
    let locales :=
      match workflow_locales apos with
      | Some ls => ls
      | None => ["default"]
      end in
    eachM (push_locale d body) locales commands.

(** *** Index lifecycle manager *)

Definition verbose (s : string) : M unit := emit (EvVerbose s).

(** The callback of [client.x(args, callback)]. *)
Definition call (e : event) (answer : option error) : M (option error) :=
  emit e ;;; ret answer.

Definition dropIndexes : M (option error) :=
  verbose "dropping indexes" ;;;
  emit EvCatIndices ;;;
  match cat_indices apos with
  | inl err => ret (Some err)
  | inr result =>
      let indexes :=
        Str.split_lines (match result with Some r => r | None => EmptyString end) in
      let indexes :=
        List.filter
          (fun index => String.eqb (Str.substr0 (String.length docIndex) index) docIndex)
          indexes in
      match indexes with
      | [] => ret None
      | _ => call (EvDelete indexes) (indices_delete apos indexes)
      end
  end.

(** [{analysis: {analyzer: analyzer}}] *)
Definition analysis_of (analyzer : value) : obj :=
  [("analysis", VObj [("analyzer", analyzer)])].

(** [self.getLocaleSettings].  The settings of a locale are looked up in
    [localeIndexSettings] by name; for a locale named like a member of
    [Object.prototype] and not configured, the lookup answers that member,
    none of whose properties is enumerable, so that [_.merge] copies
    nothing from it, as from [{}].  The analyzer of such a locale is the
    member itself. *)
Definition getLocaleSettings (locale : string) : obj :=
  let locale := Str.strip_draft locale in
  let settings := [] in
  let settings :=
    merge settings (match opt_indexSettings opts with Some o => o | None => [] end) in
  let settings :=
    if truthy (opt_analyzer opts)
    then merge settings (analysis_of (opt_analyzer opts))
    else settings in
  let settings :=
    merge settings
      (match
          assoc
            (match opt_localeIndexSettings opts with Some m => m | None => [] end)
            locale
       with
       | Some o => o
       | None => []
       end) in
  let settings :=
    match opt_analyzers opts with
    | Some analyzers =>
        if truthy (Obj.get analyzers locale)
        then merge settings (analysis_of (Obj.get analyzers locale))
        else settings
    | None => settings
    end in
  settings.

(** The mapping of lines 163-171. *)
Definition add_property (properties : obj) (field : string) : obj :=
  let properties := Obj.put properties field (VObj [("type", VStr "text")]) in
  Obj.put properties (shadow field) (VObj [("type", VStr "keyword")]).

Definition createIndex (locale : string) : M (option error) :=
  let properties := fold_left add_property fields [] in
  index <- getLocaleIndex locale ;;
  let settings := getLocaleSettings locale in
  call (EvCreate index settings properties) (indices_create apos index).

Definition createIndexes : M (option error) :=
  verbose "creating indexes" ;;;
  let locales := getLocales in
  eachSeries locales createIndex.

(** *** Reindex orchestrator *)

Definition batchSize : nat :=
  match opt_batchSize opts with
  | Some (S n) => S n
  | _ => 100
  end.

(** [db.find({_id: {$gt: last}}).sort({_id: 1}).limit(batchSize)] *)
Definition id_le (a b : doc) : Prop := String.le (doc_id a) (doc_id b).

Definition id_gt (last : string) (d : doc) : Prop := ~ String.le (doc_id d) last.

Definition find_page (last : string) (limit : nat) : list doc :=
  take limit (merge_sort id_le (filter (id_gt last) (store apos))).

(** [docs[docs.length - 1]._id] *)
Definition last_id (docs : list doc) : string :=
  match last docs with Some d => doc_id d | None => EmptyString end.

Definition indexBatch (reindexed : nat) (docs : list doc) : M (option error) :=
  emit (EvProgress reindexed (length (store apos))) ;;;
  bodies <- mapM getBulkIndexCommandsForDoc docs ;;
  let args := BulkArgs (concat bodies) None in
  call (EvBulk args) (client_bulk apos args).

(** [nextBatch]; the recursion of the source is bounded by [fuel]. *)
Fixpoint nextBatch (fuel : nat) (last : string) (reindexed : nat)
  : M (option error) :=
  match fuel with
  | 0 => fun st => (OutOfFuel, st)
  | S fuel' =>
      emit (EvFind last batchSize) ;;;
      match db_find apos last with
      | Some err => ret (Some err)
      | None =>
          let docs := find_page last batchSize in
          match docs with
          | [] => ret None
          | _ =>
              let last := last_id docs in
              let reindexed := reindexed + length docs in
              r <- indexBatch reindexed docs ;;
              match r with
              | Some err => ret (Some err)
              | None => nextBatch fuel' last reindexed
              end
          end
      end
  end.

(** [self.index]; every page that is not empty moves [last] past at
    least one document, so one round more than there are documents is
    always enough. *)
Definition index : M (option error) :=
  verbose "Indexing all documents" ;;;
  verbose "Counting docs for progress display" ;;;
  emit EvCount ;;;
  match db_count apos with
  | Some err => ret (Some err)
  | None => nextBatch (S (length (store apos))) EmptyString 0
  end.

Definition refresh : M (option error) :=
  verbose "refreshing" ;;;
  let locales := getLocales in
  indexes <- mapM getLocaleIndex locales ;;
  call (EvRefresh indexes) (indices_refresh apos indexes).

Definition lock_name : string := "apostrophe-elasticsearch-reindex".

(** Modelled from the spec: [apos.locks.withLock(name, fn)] of the host,
    which is not part of this module: it runs [fn] only while holding
    [name] and releases the lock when [fn] calls back, with an error or
    without.  When the lock is not granted [fn] does not run.  An
    exception raised while [fn] runs is not handed to [withLock]: [fn]
    never calls back, and the lock is not released. *)
Definition withLock (name : string) (fn : M (option error)) : M (option error) :=
  emit (EvLock name) ;;;
  match lock_acquire apos name with
  | Some err => ret (Some err)
  | None =>
      r <- fn ;;
      emit (EvUnlock name) ;;;
      ret r
  end.

Definition reindexTask : M (option error) :=
  verbose "reindex task launched" ;;;
  withLock lock_name (series [dropIndexes; createIndexes; index; refresh]).

End Module.

(** ** Sample configurations and documents *)

Module Sample.

Definition no_options : options :=
  Options None None None None VUndefined None None None.

(** A site without the workflow module on which every collaborator call
    succeeds. *)
Definition site (o : options) (short : string) (wf : option (list string))
    (docs : list doc) : host :=
  Host o short wf docs None (fun _ => None) (fun _ => None) (inr None)
       (fun _ => None) (fun _ => None) (fun _ => None) (fun _ => None).

Definition title_only : options :=
  Options (Some ["title"]) None None None VUndefined None None None.

Definition plain : host := site no_options "site" None [].

Definition fresh : state := State ∅ [].

Definition titled : host := site title_only "site" None [].

Definition hello : doc :=
  Doc "x" [("title", VStr "Hello World"); ("workflowLocale", VStr "en")].


(** A field set that names the identifier. *)
Definition with_id : host :=
  site (Options (Some ["_id"]) None None None VUndefined None None None)
       "site" None [].

(** A field set in which one field is named like the shadow key of
    another. *)
Definition clashing : host :=
  site (Options (Some ["titleESExact"; "title"]) None None None VUndefined
                None None None)
       "site" None [].

Definition short_title : doc := Doc "x" [("title", VStr "a")].

(** Two locales from the workflow module. *)
Definition bilingual : host := site title_only "site" (Some ["en"; "fr"]) [].

(** Settings in all four layers. *)
Definition layered_options : options :=
  Options None None None
    (Some [("number_of_shards", VNum 1);
           ("analysis", VObj [("analyzer", VStr "standard");
                              ("filter", VObj [("stop", VBool true)])])])
    (VStr "simple")
    (Some [("fr", [("number_of_shards", VNum 2);
                   ("analysis", VObj [("filter", VObj [("elision", VBool true)])])])])
    (Some [("fr", VStr "french")])
    None.

Definition layered : host := site layered_options "site" (Some ["en"; "fr-draft"]) [].

(** Three documents, stored out of order, fetched two at a time. *)
Definition paged : host :=
  site (Options (Some ["title"]) None None None VUndefined None None (Some 2))
       "site" None
       [Doc "c" [("title", VStr "C")]; Doc "a" [("title", VStr "A")];
        Doc "b" [("title", VStr "B")]].

(** A site on which the search engine refuses to create an index. *)
Definition refusing : host :=
  Host title_only "site" None [Doc "a" []] None (fun _ => None) (fun _ => None)
       (inr None) (fun _ => None) (fun _ => Some "boom") (fun _ => None)
       (fun _ => None).

(** A field set that names a member of [Object.prototype]. *)
Definition inheriting : host :=
  site (Options (Some ["title"; "toString"]) None None None VUndefined None None None)
       "site" None [].

(** Two locales with the same letters. *)
Definition ambiguous : host :=
  site title_only "site" (Some ["en-gb"; "en_gb"]) [Doc "a" []].

(** A list in the global settings and a shorter one in the settings of a
    locale. *)
Definition listed_options : options :=
  Options None None None
    (Some [("stopwords", VArr [VStr "a"; VStr "b"; VStr "c"])])
    VUndefined
    (Some [("fr", [("stopwords", VArr [VStr "z"])])])
    None None.

Definition listed : host := site listed_options "site" (Some ["fr"]) [].

End Sample.

(** ** Vocabulary of the properties *)

(** The index name derived from a locale. *)
Definition index_name (apos : host) (locale : string) : string :=
  docIndex apos ++ Str.strip_non_az (Str.toLowerCase locale).

(** No configured field is named like the shadow key of a configured
    field. *)
Definition shadow_free (fs : list string) : Prop :=
  Forall (fun h => Forall (fun g => h <> shadow g) fs) fs.

Global Instance shadow_free_dec (fs : list string) : Decision (shadow_free fs).
Proof. unfold shadow_free. apply _. Defined.

(** The size test answers yes. *)
Definition is_small (v : value) : bool :=
  match small v with Ret true => true | _ => false end.

(** What processing the field [f] writes under the key [k], if anything,
    when it does not raise. *)
Definition writes (d : doc) (f k : string) : option value :=
  let v := doc_get d f in
  if good v then
    if is_small v && String.eqb (shadow f) k then Some v
    else if String.eqb f k && negb (String.eqb f "__proto__") then Some v
    else None
  else None.

(** The document answers a function for the field. *)
Definition reads_function (d : doc) (f : string) : Prop :=
  typeof (doc_get d f) = TFunction.

Global Instance reads_function_dec (d : doc) (f : string) : Decision (reads_function d f).
Proof. unfold reads_function. apply _. Defined.


(** The two array elements of one bulk command. *)
Definition bulk_command (d : doc) (body : obj) (_index : string) : list command :=
  [CIndex _index "aposDoc" (doc_id d); CBody body].

(** The result of a computation with its value mapped. *)
Definition map_outcome {A B} (f : A -> B) (r : outcome A * state) : outcome B * state :=
  match r with
  | (Ret a, st) => (Ret (f a), st)
  | (Throw msg, st) => (Throw msg, st)
  | (OutOfFuel, st) => (OutOfFuel, st)
  end.

(** The spec's words for the settings of a locale: four layers, in
    increasing priority, deep-merged from left to right.  A layer that is
    not configured is the empty object. *)
Definition settings_layers (apos : host) (locale : string) : list obj :=
  let o := self_options apos in
  let locale := Str.strip_draft locale in
  [ match opt_indexSettings o with Some s => s | None => [] end;
    if truthy (opt_analyzer o) then analysis_of (opt_analyzer o) else [];
    match opt_localeIndexSettings o with
    | Some m => match assoc m locale with Some s => s | None => [] end
    | None => []
    end;
    match opt_analyzers o with
    | Some m =>
        if truthy (Obj.get m locale) then analysis_of (Obj.get m locale) else []
    | None => []
    end ].

Definition getLocaleSettings_spec (apos : host) (locale : string) : obj :=
  fold_left merge (settings_layers apos locale) [].

(** The values of JSON that are neither arrays nor objects. *)
Definition scalar (v : value) : bool :=
  match v with
  | VNull | VBool _ | VNum _ | VStr _ => true
  | VUndefined | VArr _ | VObj _ | VFun _ => false
  end.

(** The array that [_.merge] starts from under a key: the array that is
    there, or an empty one. *)
Definition array_at (object : obj) (k : string) : list value :=
  match Obj.lookup object k with Some (VArr da) => da | _ => [] end.

(** Two arrays merged index by index. *)
Fixpoint merge_items (da sa : list value) : list value :=
  match sa with
  | [] => da
  | s :: sa' =>
      match da with
      | [] => merge_value None s :: merge_items [] sa'
      | d :: da' => merge_value (Some d) s :: merge_items da' sa'
      end
  end.

(** ** Traces *)

(** The documents above the cursor [last]. *)
Definition remaining (apos : host) (last : string) : list doc :=
  filter (id_gt last) (store apos).

(** The paged fetch calls of a trace: cursor and limit. *)
Definition finds (evs : list event) : list (string * nat) :=
  omap (fun e => match e with EvFind l n => Some (l, n) | _ => None end) evs.

(** Keyset pagination from the cursor [last]: every fetch asks for the
    identifiers above the last identifier of the page before it, with the
    limit [limit], and the fetch that gets an empty page is the last. *)
Fixpoint keyset_chain (apos : host) (limit : nat) (last : string)
    (fs : list (string * nat)) : Prop :=
  match fs with
  | [] => False
  | (l, n) :: rest =>
      l = last /\ n = limit /\
      match find_page apos l limit with
      | [] => rest = []
      | (_ :: _) as page => keyset_chain apos limit (last_id page) rest
      end
  end.

(** The quotient rounded up. *)
Definition ceil_div (n b : nat) : nat := (n + b - 1) / b.

(** The computation appends only events that satisfy [P] to the trace. *)
Definition emits {A} (P : event -> bool) (c : M A) : Prop :=
  forall st, exists evs, trace (c st).2 = (trace st ++ evs)%list /\ Forall P evs.

(** The computation never runs out of fuel. *)
Definition terminates {A} (c : M A) : Prop :=
  forall st, (c st).1 <> OutOfFuel.

(** The events of one page in [indexBatch]. *)
Definition batch_event (e : event) : bool :=
  match e with
  | EvProgress _ _ | EvBulk _ => true
  | _ => false
  end.

(** The four stages of the reindex task and the events of each. *)
Inductive stage : Type := Drop | Create | Index | Refresh.

Definition stage_event (s : stage) (e : event) : bool :=
  match s, e with
  | Drop, EvVerbose m => String.eqb m "dropping indexes"
  | Drop, (EvCatIndices | EvDelete _) => true
  | Create, EvVerbose m => String.eqb m "creating indexes"
  | Create, EvCreate _ _ _ => true
  | Index, EvVerbose m =>
      String.eqb m "Indexing all documents" ||
      String.eqb m "Counting docs for progress display"
  | Index, (EvCount | EvFind _ _ | EvProgress _ _ | EvBulk _) => true
  | Refresh, EvVerbose m => String.eqb m "refreshing"
  | Refresh, EvRefresh _ => true
  | _, _ => false
  end.

Global Instance id_le_trans : Transitive id_le.
Proof. intros a b c. unfold id_le. apply (transitivity (R := String.le)). Qed.

Global Instance id_le_total : Total id_le.
Proof. intros a b. unfold id_le. apply (total String.le). Qed.

(** ** The reindex pipeline as the spec describes it *)



(** ** The incremental path *)

(** [self.docAfterSave]: [options.elasticsearchDefer] is the only save
    option that is read; [(!x).toString()] is ["true"] or ["false"]. *)
Definition docAfterSave (apos : host) (d : doc) (elasticsearchDefer : value)
  : M (option error) :=
  body <- getBulkIndexCommandsForDoc apos d ;;
  let args :=
    BulkArgs body (Some (if negb (truthy elasticsearchDefer) then "true" else "false")) in
  call (EvBulk args) (client_bulk apos args).

(** ** More vocabulary *)

(** The field mapping that [createIndexes] sends with every index. *)
Definition mapping (apos : host) : obj := fold_left add_property (fields apos) [].

(** The indexes created, the bulk bodies written and the indexes deleted
    or refreshed in a trace. *)
Definition creates (evs : list event) : list string :=
  omap (fun e => match e with EvCreate i _ _ => Some i | _ => None end) evs.

Definition bulks (evs : list event) : list (list command) :=
  omap (fun e => match e with EvBulk a => Some (args_body a) | _ => None end) evs.

Definition deletes (evs : list event) : list (list string) :=
  omap (fun e => match e with EvDelete l => Some l | _ => None end) evs.

(** The pages that a list of fetch calls gets. *)
Definition pages (apos : host) (fs : list (string * nat)) : list (list doc) :=
  map (fun f => find_page apos f.1 f.2) fs.

(** Every entry of the table with a locale that is not empty is still
    there. *)
Definition table_kept (st st' : state) : Prop :=
  forall n l, indexNamesSeen st !! n = Some l -> l <> EmptyString ->
              indexNamesSeen st' !! n = Some l.

Definition keeps_table {A} (c : M A) : Prop :=
  forall st, table_kept st (c st).2.

(** Every entry of the table holds a lower-cased locale under the index
    name derived from it. *)
Definition table_ok (apos : host) (st : state) : Prop :=
  forall n l, indexNamesSeen st !! n = Some l ->
              n = docIndex apos ++ Str.strip_non_az l /\ Str.toLowerCase l = l.

(** The code units that [JSON.stringify] copies as they are. *)
Definition plain_char (c : ascii) : bool :=
  (32 <=? Str.code c)%nat && negb (Str.code c =? 34)%nat && negb (Str.code c =? 92)%nat.

Definition newline : string := String "010"%char EmptyString.

Definition no_newline (s : string) : bool :=
  Str.all (fun c => negb (Ascii.eqb c "010"%char)) s.

(** [p] is a prefix of [s]. *)
Definition starts_with (p s : string) : Prop := exists t, s = p ++ t.

(** The create calls for the indexes of the locales [ls]. *)
Definition create_events (apos : host) (ls : list string) : list event :=
  map (fun l => EvCreate (index_name apos l) (getLocaleSettings apos l) (mapping apos)) ls.

(** The command belongs to a document of [docs]: its projected body, or
    an action descriptor with its identifier. *)
Definition command_of (apos : host) (docs : list doc) (c : command) : Prop :=
  exists d, d ∈ docs /\
    ((exists body, project apos d = Ret body /\ c = CBody body) \/
     exists name, c = CIndex name "aposDoc" (doc_id d)).

(** The bulk bodies of the event hold commands of [docs] only. *)
Definition writes_only (apos : host) (docs : list doc) (e : event) : Prop :=
  match e with
  | EvBulk args => Forall (command_of apos docs) (args_body args)
  | _ => True
  end.

(** The document is sent in the bulk body [cmds]: its projected body and an
    action descriptor with its identifier. *)
Definition sent (apos : host) (d : doc) (cmds : list command) : Prop :=
  (exists body, project apos d = Ret body /\ CBody body ∈ cmds) /\
  exists name, CIndex name "aposDoc" (doc_id d) ∈ cmds.

(** [emits] for a property of events that is not a boolean test. *)
Definition appends {A} (P : event -> Prop) (c : M A) : Prop :=
  forall st, exists evs, trace (c st).2 = (trace st ++ evs)%list /\ Forall P evs.

(** More sample sites. *)
Module Demo.

(** A catalog with the indexes of two locales and one foreign index. *)
Definition cataloged : host :=
  Host Sample.title_only "site" (Some ["en"; "fr"]) [] None (fun _ => None)
       (fun _ => None)
       (inr (Some (Str.join newline ["siteaposdocsen"; "other"; "siteaposdocsfr"])))
       (fun _ => None) (fun _ => None) (fun _ => None) (fun _ => None).

(** A site whose bulk writes fail. *)
Definition unwritable : host :=
  Host Sample.title_only "site" None [Doc "a" []; Doc "b" []] None (fun _ => None)
       (fun _ => None) (inr None) (fun _ => None) (fun _ => None)
       (fun _ => Some "disk full") (fun _ => None).

End Demo.

Module DemoDocs.

(** A document whose locale is a number. *)
Definition numbered : doc := Doc "x" [("workflowLocale", VNum 5)].

(** A site whose workflow module has no locales. *)
Definition speechless : host := Sample.site Sample.title_only "site" (Some []) [].

End DemoDocs.

(** * Properties *)

(** Closed decidable facts are settled by evaluation. *)
Ltac by_compute := apply (bool_decide_unpack _); vm_compute; exact I.

(** ** Strings and objects *)

Lemma append_nil_l (s : string) : EmptyString ++ s = s.
Proof. reflexivity. Qed.

Lemma append_cons (c : ascii) (a s : string) : String c a ++ s = String c (a ++ s).
Proof. reflexivity. Qed.

Lemma length_append (a b : string) :
  String.length (a ++ b) = String.length a + String.length b.
Proof.
  induction a as [|c a IH]; [done|].
  rewrite append_cons. simpl. by rewrite IH.
Qed.

Lemma append_inj_r (a b s : string) : a ++ s = b ++ s -> a = b.
Proof.
  revert b. induction a as [|c a IH]; intros [|c' b] H.
  - done.
  - apply (f_equal String.length) in H. rewrite !length_append in H. simpl in H. lia.
  - apply (f_equal String.length) in H. rewrite !length_append in H. simpl in H. lia.
  - rewrite !append_cons in H. injection H as -> H. f_equal. by apply IH.
Qed.

Lemma all_append (p : ascii -> bool) (a b : string) :
  Str.all p (a ++ b) = Str.all p a && Str.all p b.
Proof.
  induction a as [|c a IH]; [done|].
  rewrite append_cons. simpl. rewrite IH. by destruct (p c).
Qed.

Lemma all_keep (p : ascii -> bool) (s : string) : Str.all p (Str.keep p s) = true.
Proof.
  induction s as [|c s IH]; simpl; [done|].
  destruct (p c) eqn:Hc; simpl; [by rewrite Hc|done].
Qed.

Lemma shadow_inj (f g : string) : shadow f = shadow g -> f = g.
Proof. apply append_inj_r. Qed.

Lemma shadow_ne (f : string) : shadow f <> f.
Proof.
  intros H. apply (f_equal String.length) in H.
  unfold shadow in H. rewrite length_append in H. simpl in H. lia.
Qed.

Lemma shadow_ne_id (f : string) : shadow f <> "_id".
Proof.
  intros H. apply (f_equal String.length) in H.
  unfold shadow in H. rewrite length_append in H. simpl in H. lia.
Qed.

Lemma shadow_ne_proto (f : string) : shadow f <> "__proto__".
Proof.
  intros H.
  assert (String.length f = 2) as Hlen.
  { apply (f_equal String.length) in H.
    unfold shadow in H. rewrite length_append in H. simpl in H. lia. }
  destruct f as [|a [|b [|c f]]]; simpl in Hlen; try lia.
  unfold shadow in H. rewrite !append_cons, append_nil_l in H. by injection H.
Qed.

Module ObjFacts.

Lemma lookup_set (o : obj) (k k' : string) (v : value) :
  Obj.lookup (Obj.set o k v) k' =
  if String.eqb k k' then Some v else Obj.lookup o k'.
Proof.
  induction o as [|[k0 v0] o IH]; simpl.
  - done.
  - destruct (String.eqb_spec k0 k) as [->|Hk0]; simpl.
    + destruct (String.eqb_spec k k'); done.
    + destruct (String.eqb_spec k0 k') as [->|]; [|done].
      destruct (String.eqb_spec k k'); [congruence|done].
Qed.

Lemma lookup_set_eq (o : obj) (k : string) (v : value) :
  Obj.lookup (Obj.set o k v) k = Some v.
Proof. by rewrite lookup_set, String.eqb_refl. Qed.

Lemma lookup_set_ne (o : obj) (k k' : string) (v : value) :
  k <> k' -> Obj.lookup (Obj.set o k v) k' = Obj.lookup o k'.
Proof. intros H. rewrite lookup_set. by apply String.eqb_neq in H as ->. Qed.

Lemma lookup_put (o : obj) (k k' : string) (v : value) :
  Obj.lookup (Obj.put o k v) k' =
  if String.eqb k k' && negb (String.eqb k "__proto__") then Some v
  else Obj.lookup o k'.
Proof.
  unfold Obj.put. destruct (String.eqb k "__proto__"); simpl.
  - by rewrite andb_false_r.
  - by rewrite lookup_set, andb_true_r.
Qed.

Lemma put_shadow (o : obj) (f : string) (v : value) :
  Obj.put o (shadow f) v = Obj.set o (shadow f) v.
Proof.
  unfold Obj.put. destruct (String.eqb_spec (shadow f) "__proto__") as [H|]; [|done].
  by destruct (shadow_ne_proto f).
Qed.

Lemma lookup_delete (o : obj) (k k' : string) :
  Obj.lookup (Obj.delete o k) k' =
  if String.eqb k k' then None else Obj.lookup o k'.
Proof.
  induction o as [|[k0 v0] o IH]; simpl.
  - by destruct (String.eqb k k').
  - destruct (String.eqb_spec k0 k) as [->|Hk0]; simpl.
    + rewrite IH. destruct (String.eqb_spec k k'); done.
    + destruct (String.eqb_spec k0 k') as [->|]; [|done].
      destruct (String.eqb_spec k k'); [congruence|done].
Qed.

Lemma set_same (o : obj) (k : string) (v : value) :
  Obj.lookup o k = Some v -> Obj.set o k v = o.
Proof.
  induction o as [|[k0 v0] o IH]; simpl; [done|].
  destruct (String.eqb_spec k0 k) as [->|Hk0]; intros H.
  - by injection H as ->.
  - by rewrite IH.
Qed.

Lemma lookup_None_keys (o : obj) (k : string) :
  Obj.lookup o k = None <-> k ∉ Obj.keys o.
Proof.
  unfold Obj.keys. induction o as [|[k0 v0] o IH]; simpl.
  - split; [intros _ H; by apply elem_of_nil in H | done].
  - rewrite not_elem_of_cons.
    destruct (String.eqb_spec k0 k) as [->|Hk0].
    + split; [done|]. by intros [? _].
    + rewrite IH. split; [by split; [congruence|]|by intros [_ ?]].
Qed.

End ObjFacts.

(** ** Locale index namer *)

Section Namer.

Variable apos : host.

(** A successful call returns the derived name, records the lower-cased
    locale under it and calls no collaborator. *)
Lemma getLocaleIndex_Ret (locale : string) (st st' : state) (name : string) :
  getLocaleIndex apos locale st = (Ret name, st') ->
  name = index_name apos locale /\
  indexNamesSeen st' =
    <[index_name apos locale := Str.toLowerCase locale]> (indexNamesSeen st) /\
  trace st' = trace st.
Proof.
  unfold getLocaleIndex, index_name. intros H.
  destruct (indexNamesSeen st !! _) as [s|] eqn:Hs.
  - destruct (negb _ && negb _); [done|]. by simplify_eq.
  - by simplify_eq.
Qed.

(** A failing call raises the collision error and changes nothing. *)
Lemma getLocaleIndex_not_Ret (locale : string) (st st' : state) (out : outcome string) :
  getLocaleIndex apos locale st = (out, st') ->
  (forall name, out <> Ret name) ->
  st' = st /\ exists seen,
    indexNamesSeen st !! index_name apos locale = Some seen /\
    out = Throw (collision_message (Str.toLowerCase locale) seen).
Proof.
  unfold getLocaleIndex, index_name. intros H Hout.
  destruct (indexNamesSeen st !! _) as [s|] eqn:Hs.
  - destruct (negb _ && negb _); simplify_eq; [eauto|]. by edestruct Hout.
  - simplify_eq. by edestruct Hout.
Qed.

Lemma getLocaleIndex_fresh (locale : string) (st : state) :
  indexNamesSeen st !! index_name apos locale = None ->
  getLocaleIndex apos locale st =
    (Ret (index_name apos locale),
     State (<[index_name apos locale := Str.toLowerCase locale]> (indexNamesSeen st))
           (trace st)).
Proof. unfold getLocaleIndex, index_name. by intros ->. Qed.

Lemma getLocaleIndex_again (locale : string) (st : state) :
  indexNamesSeen st !! index_name apos locale = Some (Str.toLowerCase locale) ->
  getLocaleIndex apos locale st = (Ret (index_name apos locale), st).
Proof.
  unfold getLocaleIndex, index_name. intros H. rewrite H.
  rewrite String.eqb_refl, andb_false_r. rewrite insert_id by done.
  by destruct st.
Qed.

(** The derived name is made of lower-case letters exactly when the
    lower-cased base name is. *)
Lemma index_name_letters (locale : string) :
  Str.all Str.is_az (index_name apos locale) =
  Str.all Str.is_az (Str.toLowerCase (baseName apos)).
Proof.
  unfold index_name, docIndex, Str.strip_non_az.
  rewrite !all_append, all_keep. simpl. by rewrite !andb_true_r.
Qed.

End Namer.

(** ** Claims about the locale index namer *)

Section NamerClaims.

Variable apos : host.

Lemma getLocaleIndex_repeat (locale : string) (n : nat) (st : state) :
  indexNamesSeen st !! index_name apos locale = Some (Str.toLowerCase locale) ->
  mapM (getLocaleIndex apos) (replicate n locale) st =
    (Ret (replicate n (index_name apos locale)), st).
Proof.
  intros H. induction n as [|n IH]; simpl; [done|].
  unfold bind. rewrite getLocaleIndex_again by done. by rewrite IH.
Qed.

(** C4 (as the code has it): two locales whose lower-cased forms differ
    but whose derived index names coincide: when the name has not been
    produced before and the first locale's lower-cased form is not
    empty, the first call returns the name and the second raises, at
    once and without changing the table, the error whose message names
    the two lower-cased locales; a single locale, however often it is
    repeated, never raises. *)
Theorem getLocaleIndex_collision :
  (forall (l1 l2 : string) (st : state),
      Str.toLowerCase l1 <> Str.toLowerCase l2 ->
      Str.toLowerCase l1 <> EmptyString ->
      index_name apos l1 = index_name apos l2 ->
      indexNamesSeen st !! index_name apos l1 = None ->
      exists st1,
        getLocaleIndex apos l1 st = (Ret (index_name apos l1), st1) /\
        getLocaleIndex apos l2 st1 =
          (Throw (collision_message (Str.toLowerCase l2) (Str.toLowerCase l1)), st1)) /\
  (forall (l : string) (n : nat) (st : state),
      indexNamesSeen st !! index_name apos l = None ->
      exists st1,
        mapM (getLocaleIndex apos) (replicate n l) st =
          (Ret (replicate n (index_name apos l)), st1)).
Proof.
  split.
  - intros l1 l2 st Hne Hnonempty Hname Hfresh.
    eexists. split; [by apply getLocaleIndex_fresh|].
    unfold getLocaleIndex. fold (index_name apos l2). rewrite <- Hname.
    simpl. rewrite lookup_insert_eq.
    apply String.eqb_neq in Hnonempty as ->.
    by apply String.eqb_neq in Hne as ->.
  - intros l [|n] st Hfresh; simpl; [by eexists|].
    unfold bind. rewrite getLocaleIndex_fresh by done.
    rewrite getLocaleIndex_repeat; [by eexists|].
    simpl. by rewrite lookup_insert_eq.
Qed.

End NamerClaims.

(** The locales [en-gb] and [en_GB] on a fresh table. *)
Lemma getLocaleIndex_collision_witness :
  exists st1,
    getLocaleIndex Sample.plain "en-gb" Sample.fresh = (Ret "siteaposdocsengb", st1) /\
    getLocaleIndex Sample.plain "en_GB" st1 =
      (Throw (collision_message "en_gb" "en-gb"), st1).
Proof.
  destruct (getLocaleIndex_collision Sample.plain) as [H _].
  apply (H "en-gb" "en_GB" Sample.fresh); by vm_compute.
Defined.

(** C4 (as the spec words it) fails: [EN] and [en] are different locale
    strings with one derived index name, and the second call returns. *)
Lemma getLocaleIndex_collision_counterexample :
  ~ (forall (apos : host) (l1 l2 : string) (st : state),
        l1 <> l2 ->
        index_name apos l1 = index_name apos l2 ->
        indexNamesSeen st = ∅ ->
        exists name msg st1,
          getLocaleIndex apos l1 st = (Ret name, st1) /\
          getLocaleIndex apos l2 st1 = (Throw msg, st1)).
Proof.
  intros H.
  destruct (H Sample.plain "EN" "en" Sample.fresh)
    as (name & msg & st1 & H1 & H2); [done..|].
  apply getLocaleIndex_Ret in H1 as (_ & Hseen & _).
  unfold getLocaleIndex in H2. rewrite Hseen in H2.
  vm_compute in H2. discriminate H2.
Qed.

(** C8 (defect): [connect] lower-cases the base name but, unlike the
    locale, does not strip it: with the short name [my-site] the index
    name for [en] contains a hyphen. *)
Theorem getLocaleIndex_keeps_base_name_characters :
  (getLocaleIndex (Sample.site Sample.no_options "my-site" None []) "en" Sample.fresh).1
    = Ret "my-siteaposdocsen" /\
  Str.all Str.is_az "my-siteaposdocsen" = false.
Proof. by vm_compute. Qed.

(** ** Field projector *)


(** [JSON.stringify] answers a string for every truthy value that is not
    a function. *)
Lemma stringify_truthy (v : value) :
  truthy v = true -> typeof v <> TFunction -> is_Some (JSON.stringify v).
Proof. destruct v; simpl; try done; by eexists. Qed.

(** The size test raises for functions and for nothing else. *)
Lemma small_function (v : value) :
  typeof v = TFunction -> small v = Throw length_of_undefined.
Proof. by destruct v. Qed.

Lemma small_not_function (v : value) :
  typeof v <> TFunction -> small v = Ret (is_small v).
Proof.
  intros Hv. unfold is_small, small.
  destruct (truthy v) eqn:Ht; simpl; [|done].
  destruct (stringify_truthy v Ht Hv) as [s ->]. by destruct (_ <? _)%nat.
Qed.

Lemma small_Ret (v : value) (b : bool) :
  small v = Ret b ->
  typeof v <> TFunction /\
  (b = true <->
   truthy v = false \/
   exists s, JSON.stringify v = Some s /\ String.length s < 4096).
Proof.
  intros H. split.
  - intros Hv. by rewrite small_function in H.
  - unfold small in H. destruct (truthy v); simpl in H.
    + destruct (JSON.stringify v) as [s|]; [|done]. injection H as <-.
      rewrite Nat.ltb_lt. split; [intros Hs; right; by exists s|].
      by intros [?|(s' & [= <-] & ?)].
    + injection H as <-. split; [by left|done].
Qed.

Section Projector.

Variable apos : host.
Variable d : doc.

(** One field: a function ends the projection. *)
Lemma project_field_function (body : obj) (f : string) :
  reads_function d f -> project_field d body f = Throw length_of_undefined.
Proof.
  unfold reads_function, project_field. intros Hf.
  rewrite small_function by done.
  by destruct (doc_get d f).
Qed.

Lemma project_field_returns (body : obj) (f : string) :
  ~ reads_function d f -> exists body', project_field d body f = Ret body'.
Proof.
  unfold reads_function, project_field. intros Hf.
  destruct (good _); [|by eexists]. rewrite small_not_function by done. simpl.
  destruct (is_small _); by eexists.
Qed.

Lemma project_field_not_function (body body' : obj) (f : string) :
  project_field d body f = Ret body' -> ~ reads_function d f.
Proof. intros H Hf. by rewrite project_field_function in H. Qed.

Lemma lookup_project_field (body body' : obj) (f k : string) :
  project_field d body f = Ret body' ->
  Obj.lookup body' k =
  match writes d f k with
  | Some v => Some v
  | None => Obj.lookup body k
  end.
Proof.
  intros H. pose proof (project_field_not_function _ _ _ H) as Hf.
  revert H. unfold project_field, writes.
  destruct (good (doc_get d f)); [|by intros [= <-]].
  rewrite small_not_function by done. simpl.
  destruct (is_small (doc_get d f)); simpl; intros [= <-].
  - rewrite ObjFacts.put_shadow, ObjFacts.lookup_set, ObjFacts.lookup_put.
    destruct (String.eqb (shadow f) k); [done|].
    by destruct (String.eqb f k && _).
  - rewrite ObjFacts.lookup_put. by destruct (String.eqb f k && _).
Qed.

(** The loop over the fields returns exactly when no field reads a
    function. *)
Lemma each_project_returns (fs : list string) (body : obj) :
  Forall (fun f => ~ reads_function d f) fs ->
  exists body', each (project_field d) fs body = Ret body'.
Proof.
  intros Hfs. revert body. induction Hfs as [|f fs Hf _ IH]; intros body; simpl.
  - by eexists.
  - destruct (project_field_returns body f Hf) as [body1 ->]. simpl. apply IH.
Qed.

Lemma each_project_throws (fs : list string) (body : obj) :
  Exists (reads_function d) fs ->
  each (project_field d) fs body = Throw length_of_undefined.
Proof.
  revert body. induction fs as [|f fs IH]; intros body Hfs; simpl.
  - by apply Exists_nil in Hfs.
  - destruct (decide (reads_function d f)) as [Hf|Hf].
    + by rewrite project_field_function.
    + destruct (project_field_returns body f Hf) as [body1 ->]. simpl.
      apply IH. by apply Exists_cons in Hfs as [?|?].
Qed.

(** A key is in the folded body when it was there before or some field
    writes it. *)
Lemma lookup_each_is_Some (fs : list string) (body body' : obj) (k : string) :
  each (project_field d) fs body = Ret body' ->
  is_Some (Obj.lookup body' k) <->
  is_Some (Obj.lookup body k) \/ exists f, f ∈ fs /\ is_Some (writes d f k).
Proof.
  revert body. induction fs as [|f fs IH]; intros body; simpl.
  - intros [= <-]. split; [by left|].
    intros [H|(f & Hf & _)]; [done|]. by apply elem_of_nil in Hf.
  - destruct (project_field d body f) as [body1| |] eqn:H1; simpl; [|done..].
    intros H. rewrite (IH _ H), (lookup_project_field _ _ _ k H1). split.
    + intros [Hk|(g & Hg & Hw)].
      * destruct (writes d f k) eqn:Hw; [|by left].
        right. exists f. split; [by left|]. by rewrite Hw.
      * right. exists g. split; [by right|done].
    + intros [Hk|(g & Hg & Hw)].
      * left. by destruct (writes d f k).
      * apply elem_of_cons in Hg as [->|Hg].
        -- left. by destruct (writes d f k).
        -- right. by exists g.
Qed.

(** The value under a key was there before or is what some field
    writes. *)
Lemma lookup_each_Some (fs : list string) (body body' : obj) (k : string) (v : value) :
  each (project_field d) fs body = Ret body' ->
  Obj.lookup body' k = Some v ->
  Obj.lookup body k = Some v \/ exists f, f ∈ fs /\ writes d f k = Some v.
Proof.
  revert body. induction fs as [|f fs IH]; intros body; simpl.
  - intros [= <-]. by left.
  - destruct (project_field d body f) as [body1| |] eqn:H1; simpl; [|done..].
    intros H [Hk|(g & Hg & Hw)]%(IH _ H).
    + rewrite (lookup_project_field _ _ _ k H1) in Hk.
      destruct (writes d f k) eqn:Hw; [|by left].
      right. exists f. split; [by left|congruence].
    + right. exists g. split; [by right|done].
Qed.

(** The projection is the loop followed by [delete body._id]. *)
Lemma project_Ret (body : obj) :
  project apos d = Ret body ->
  exists body0,
    each (project_field d) (fields apos) [] = Ret body0 /\
    body = Obj.delete body0 "_id".
Proof.
  unfold project. destruct (each _ _ _) as [body0| |]; simpl; [|done..].
  intros [= <-]. by exists body0.
Qed.

Lemma project_returns :
  Forall (fun f => ~ reads_function d f) (fields apos) ->
  exists body, project apos d = Ret body.
Proof.
  intros [body0 H]%(each_project_returns _ []). unfold project. rewrite H.
  by eexists.
Qed.

Lemma project_throws :
  Exists (reads_function d) (fields apos) ->
  project apos d = Throw length_of_undefined.
Proof. intros H%(each_project_throws _ []). unfold project. by rewrite H. Qed.

(** Every outcome of the projection. *)
Lemma project_cases :
  (Forall (fun f => ~ reads_function d f) (fields apos) /\
   exists body, project apos d = Ret body) \/
  (Exists (reads_function d) (fields apos) /\
   project apos d = Throw length_of_undefined).
Proof.
  destruct (decide (Exists (reads_function d) (fields apos))) as [H|H].
  - right. split; [done|]. by apply project_throws.
  - left. apply not_Exists_Forall in H; [|apply _].
    split; [done|]. by apply project_returns.
Qed.

Lemma project_not_function (body : obj) (f : string) :
  project apos d = Ret body -> f ∈ fields apos -> ~ reads_function d f.
Proof.
  intros H Hf Hfun. rewrite project_throws in H; [done|].
  apply Exists_exists. by exists f.
Qed.

Lemma lookup_project (body : obj) (k : string) :
  project apos d = Ret body ->
  exists body0,
    each (project_field d) (fields apos) [] = Ret body0 /\
    Obj.lookup body k = if String.eqb "_id" k then None else Obj.lookup body0 k.
Proof.
  intros (body0 & H & ->)%project_Ret. exists body0. split; [done|].
  apply ObjFacts.lookup_delete.
Qed.

Lemma shadow_free_elim (fs : list string) (g h : string) :
  shadow_free fs -> g ∈ fs -> h ∈ fs -> h <> shadow g.
Proof.
  unfold shadow_free. rewrite Forall_forall. intros H Hg Hh.
  specialize (H h Hh). rewrite Forall_forall in H. by apply H.
Qed.

(** Without name clashes the key of a field is written by that field
    only, and so is its shadow key. *)
Lemma writes_own (f g : string) (v : value) :
  shadow_free (fields apos) -> f ∈ fields apos -> g ∈ fields apos ->
  writes d g f = Some v -> g = f /\ v = doc_get d f /\ f <> "__proto__".
Proof.
  intros Hfree Hf Hg. unfold writes.
  destruct (good (doc_get d g)); [|done].
  destruct (is_small _ && String.eqb (shadow g) f) eqn:Hs.
  - apply andb_true_iff in Hs as [_ Hs]. apply String.eqb_eq in Hs.
    by destruct (shadow_free_elim _ g f Hfree Hg Hf).
  - destruct (String.eqb_spec g f) as [->|]; [|done]. simpl.
    destruct (String.eqb_spec f "__proto__"); [done|]. by intros [= <-].
Qed.

Lemma writes_shadow (f g : string) (v : value) :
  shadow_free (fields apos) -> f ∈ fields apos -> g ∈ fields apos ->
  writes d g (shadow f) = Some v ->
  g = f /\ v = doc_get d f /\ is_small (doc_get d f) = true.
Proof.
  intros Hfree Hf Hg. unfold writes.
  destruct (good (doc_get d g)); [|done].
  destruct (is_small (doc_get d g)) eqn:Hsmall; simpl.
  - destruct (String.eqb_spec (shadow g) (shadow f)) as [Heq|].
    + apply shadow_inj in Heq as ->. by intros [= <-].
    + destruct (String.eqb_spec g (shadow f)) as [->|]; [|done].
      by destruct (shadow_free_elim _ f (shadow f) Hfree Hf Hg).
  - destruct (String.eqb_spec g (shadow f)) as [->|]; [|done].
    by destruct (shadow_free_elim _ f (shadow f) Hfree Hf Hg).
Qed.

Lemma writes_self (f : string) :
  good (doc_get d f) = true -> f <> "__proto__" ->
  is_Some (writes d f f).
Proof.
  intros Hgood Hf. unfold writes. rewrite Hgood, String.eqb_refl.
  apply String.eqb_neq in Hf as ->. by destruct (is_small _ && _).
Qed.

(** The key of a configured field other than [_id] and [__proto__]. *)
Lemma project_field_key (body : obj) (f : string) :
  project apos d = Ret body ->
  shadow_free (fields apos) -> f ∈ fields apos -> f <> "_id" -> f <> "__proto__" ->
  Obj.lookup body f =
  if good (doc_get d f) then Some (doc_get d f) else None.
Proof.
  intros (body0 & H0 & ->)%(lookup_project _ f) Hfree Hf Hid Hproto.
  destruct (String.eqb_spec "_id" f) as [<-|_]; [done|].
  destruct (Obj.lookup body0 f) as [v|] eqn:Hv.
  - apply (lookup_each_Some _ _ _ _ _ H0) in Hv as [Hv|(g & Hg & Hw)]; [done|].
    destruct (writes_own f g v Hfree Hf Hg Hw) as (-> & -> & _).
    unfold writes in Hw. by destruct (good (doc_get d f)).
  - destruct (good (doc_get d f)) eqn:Hgood; [|done].
    assert (is_Some (Obj.lookup body0 f)) as Hs.
    { apply (lookup_each_is_Some _ _ _ _ H0). right. exists f. split; [done|].
      by apply writes_self. }
    rewrite Hv in Hs. by destruct Hs.
Qed.

(** The shadow key of a configured field whose value is indexed. *)
Lemma project_shadow_key (body : obj) (f : string) :
  project apos d = Ret body ->
  shadow_free (fields apos) -> f ∈ fields apos ->
  good (doc_get d f) = true ->
  Obj.lookup body (shadow f) =
  if is_small (doc_get d f) then Some (doc_get d f) else None.
Proof.
  intros (body0 & H0 & ->)%(lookup_project _ (shadow f)) Hfree Hf Hgood.
  destruct (String.eqb_spec "_id" (shadow f)) as [Heq|_].
  { by destruct (shadow_ne_id f). }
  destruct (Obj.lookup body0 (shadow f)) as [v|] eqn:Hv.
  - apply (lookup_each_Some _ _ _ _ _ H0) in Hv as [Hv|(g & Hg & Hw)]; [done|].
    destruct (writes_shadow f g v Hfree Hf Hg Hw) as (-> & -> & ->). done.
  - destruct (is_small (doc_get d f)) eqn:Hsmall; [|done].
    assert (is_Some (Obj.lookup body0 (shadow f))) as Hs.
    { apply (lookup_each_is_Some _ _ _ _ H0). right. exists f. split; [done|].
      unfold writes. by rewrite Hgood, Hsmall, String.eqb_refl. }
    rewrite Hv in Hs. by destruct Hs.
Qed.

(** The keys of a field whose value is indexed are in the body whatever
    the other fields are named. *)
Lemma project_has_keys (body : obj) (f : string) :
  project apos d = Ret body ->
  f ∈ fields apos -> good (doc_get d f) = true ->
  (f <> "_id" -> f <> "__proto__" -> is_Some (Obj.lookup body f)) /\
  (is_small (doc_get d f) = true -> is_Some (Obj.lookup body (shadow f))).
Proof.
  intros H Hf Hgood. split.
  - intros Hid Hproto. destruct (lookup_project _ f H) as (body0 & H0 & ->).
    destruct (String.eqb_spec "_id" f) as [<-|_]; [done|].
    apply (lookup_each_is_Some _ _ _ _ H0). right. exists f. split; [done|].
    by apply writes_self.
  - intros Hsmall. destruct (lookup_project _ (shadow f) H) as (body0 & H0 & ->).
    destruct (String.eqb_spec "_id" (shadow f)) as [Heq|_].
    { by destruct (shadow_ne_id f). }
    apply (lookup_each_is_Some _ _ _ _ H0). right. exists f. split; [done|].
    unfold writes. by rewrite Hgood, Hsmall, String.eqb_refl.
Qed.

(** [delete body._id] *)
Lemma project_no_id (body : obj) :
  project apos d = Ret body -> Obj.lookup body "_id" = None.
Proof. by intros (body0 & _ & ->)%(lookup_project _ "_id"). Qed.

(** No assignment adds the key [__proto__]. *)
Lemma project_no_proto (body : obj) :
  project apos d = Ret body -> Obj.lookup body "__proto__" = None.
Proof.
  intros (body0 & H0 & ->)%(lookup_project _ "__proto__"). simpl.
  destruct (Obj.lookup body0 "__proto__") as [v|] eqn:Hv; [|done].
  apply (lookup_each_Some _ _ _ _ _ H0) in Hv as [Hv|(g & Hg & Hw)]; [done|].
  unfold writes in Hw. destruct (good _); [|done].
  destruct (String.eqb_spec (shadow g) "__proto__") as [Heq|_].
  { by destruct (shadow_ne_proto g). }
  rewrite andb_false_r in Hw.
  destruct (String.eqb_spec g "__proto__") as [->|]; done.
Qed.

(** Without name clashes a field that is not indexed has no shadow key. *)
Lemma project_shadowless (body : obj) (f : string) :
  project apos d = Ret body ->
  shadow_free (fields apos) -> f ∈ fields apos ->
  good (doc_get d f) = false ->
  Obj.lookup body (shadow f) = None.
Proof.
  intros (body0 & H0 & ->)%(lookup_project _ (shadow f)) Hfree Hf Hgood.
  destruct (String.eqb "_id" (shadow f)); [done|].
  destruct (Obj.lookup body0 (shadow f)) as [v|] eqn:Hv; [|done].
  apply (lookup_each_Some _ _ _ _ _ H0) in Hv as [Hv|(g & Hg & Hw)]; [done|].
  destruct (writes_shadow f g v Hfree Hf Hg Hw) as (-> & _ & _).
  unfold writes in Hw. by rewrite Hgood in Hw.
Qed.

End Projector.

(** ** Bulk command builder *)

Section Builder.

Variable apos : host.

Lemma mapM_getLocaleIndex_Ret (ls names : list string) (st st' : state) :
  mapM (getLocaleIndex apos) ls st = (Ret names, st') ->
  names = map (index_name apos) ls /\ trace st' = trace st.
Proof.
  revert names st. induction ls as [|l ls IH]; intros names st; simpl.
  - by intros [= <- <-].
  - unfold bind at 1.
    destruct (getLocaleIndex apos l st) as [[name| |] st1] eqn:H1; [|done..].
    apply getLocaleIndex_Ret in H1 as (-> & _ & Htr).
    unfold bind at 1.
    destruct (mapM _ ls st1) as [[names'| |] st2] eqn:H2; [|done..].
    intros [= <- <-]. apply IH in H2 as [-> ->]. by rewrite Htr.
Qed.

Lemma eachM_push_locale (d : doc) (body : obj) (ls : list string)
    (acc : list command) (st : state) :
  eachM (push_locale apos d body) ls acc st =
  map_outcome (fun names => (acc ++ flat_map (bulk_command d body) names)%list)
              (mapM (getLocaleIndex apos) ls st).
Proof.
  revert acc st. induction ls as [|l ls IH]; intros acc st; simpl.
  - unfold ret. simpl. by rewrite app_nil_r.
  - unfold bind, push_locale, bind.
    destruct (getLocaleIndex apos l st) as [[name| |] st1]; simpl; [|done..].
    rewrite IH.
    destruct (mapM _ ls st1) as [[names| |] st2]; simpl; [|done..].
    by rewrite <- app_assoc.
Qed.

(** The builder projects first: when the projection raises, nothing else
    happens. *)
Lemma getBulk_project (d : doc) (st : state) :
  getBulkIndexCommandsForDoc apos d st =
  match project apos d with
  | Ret body =>
      if truthy (doc_get d "workflowLocale")
      then map_outcome (bulk_command d body)
             (getLocaleIndex_of apos (doc_get d "workflowLocale") st)
      else map_outcome (flat_map (bulk_command d body))
             (mapM (getLocaleIndex apos) (getLocales apos) st)
  | Throw msg => (Throw msg, st)
  | OutOfFuel => (OutOfFuel, st)
  end.
Proof.
  unfold getBulkIndexCommandsForDoc, lift, bind at 1.
  destruct (project apos d) as [body| |]; [|done..].
  destruct (truthy _).
  - unfold bind. by destruct (getLocaleIndex_of _ _ st) as [[name| |] st1].
  - fold (getLocales apos). by rewrite eachM_push_locale.
Qed.

Lemma getBulk_throws (d : doc) (msg : string) (st : state) :
  project apos d = Throw msg ->
  getBulkIndexCommandsForDoc apos d st = (Throw msg, st).
Proof. intros H. by rewrite getBulk_project, H. Qed.

(** A document with a locale of its own. *)
Lemma getBulk_explicit (d : doc) (body : obj) (l : string) (st : state) :
  project apos d = Ret body ->
  doc_get d "workflowLocale" = VStr l -> l <> EmptyString ->
  getBulkIndexCommandsForDoc apos d st =
  map_outcome (bulk_command d body) (getLocaleIndex apos l st).
Proof.
  intros Hbody Hl Hne. rewrite getBulk_project, Hbody, Hl. simpl.
  by apply String.eqb_neq in Hne as ->.
Qed.

(** A document without one. *)
Lemma getBulk_fanout (d : doc) (body : obj) (st : state) :
  project apos d = Ret body ->
  truthy (doc_get d "workflowLocale") = false ->
  getBulkIndexCommandsForDoc apos d st =
  map_outcome (flat_map (bulk_command d body))
              (mapM (getLocaleIndex apos) (getLocales apos) st).
Proof. intros Hbody Hl. by rewrite getBulk_project, Hbody, Hl. Qed.

(** Whatever the document, the commands that are returned are bulk
    commands for it with the projected body. *)
Lemma getBulk_Ret (d : doc) (cmds : list command) (st st' : state) :
  getBulkIndexCommandsForDoc apos d st = (Ret cmds, st') ->
  trace st' = trace st /\
  exists body names,
    project apos d = Ret body /\
    cmds = flat_map (bulk_command d body) names.
Proof.
  rewrite getBulk_project.
  destruct (project apos d) as [body| |]; [|done..].
  destruct (truthy (doc_get d "workflowLocale")) eqn:Hl.
  - destruct (doc_get d "workflowLocale") as [| | | |l| | |]; try done.
    simpl.
    destruct (getLocaleIndex apos l st) as [[name| |] st1] eqn:H1; [|done..].
    intros [= <- <-]. apply getLocaleIndex_Ret in H1 as (_ & _ & Htr).
    split; [done|]. by exists body, [name].
  - destruct (mapM _ _ st) as [[names| |] st1] eqn:H1; [|done..].
    intros [= <- <-]. apply mapM_getLocaleIndex_Ret in H1 as [_ Htr].
    split; [done|]. by exists body, names.
Qed.

Lemma elem_of_bulk_commands (d : doc) (body : obj) (names : list string) (c : command) :
  c ∈ flat_map (bulk_command d body) names ->
  c = CBody body \/ exists name, c = CIndex name "aposDoc" (doc_id d).
Proof.
  induction names as [|n names IH]; simpl.
  - intros H. by apply elem_of_nil in H.
  - rewrite !elem_of_cons. intros [->|[->|H]]; eauto.
Qed.

End Builder.

(** C1 (as the code has it): the shadow key of a field is the field name
    followed by [ESExact].  In a field set without name clashes, in every
    body that the projection returns, the shadow key of every configured
    field whose value is indexed holds the unmodified value exactly when
    the value is falsy or its [JSON.stringify] text is shorter than 4096,
    and is absent otherwise.  A configured field for which the document
    answers a function (as every document does for a field named like a
    member of [Object.prototype] that it does not have) makes the size
    test, and with it the builder, raise a TypeError.  The document
    [{_id: "x", title: "Hello World", workflowLocale: "en"}] with the
    field set [title] gives one bulk command for the index of [en] with
    the body [{title: "Hello World", titleESExact: "Hello World"}]. *)
Theorem shadow_key_rule :
  (forall (apos : host) (d : doc) (f : string) (body : obj),
      shadow_free (fields apos) -> f ∈ fields apos ->
      project apos d = Ret body ->
      good (doc_get d f) = true ->
      exists b : bool,
        small (doc_get d f) = Ret b /\
        (b = true <->
           truthy (doc_get d f) = false \/
           exists s, JSON.stringify (doc_get d f) = Some s /\ String.length s < 4096) /\
        Obj.lookup body (shadow f) = if b then Some (doc_get d f) else None) /\
  (forall (apos : host) (d : doc) (f : string) (st : state),
      f ∈ fields apos -> typeof (doc_get d f) = TFunction ->
      small (doc_get d f) = Throw length_of_undefined /\
      getBulkIndexCommandsForDoc apos d st = (Throw length_of_undefined, st)) /\
  (forall (apos : host) (st : state),
      fields apos = ["title"] ->
      indexNamesSeen st !! index_name apos "en" = None ->
      (getBulkIndexCommandsForDoc apos Sample.hello st).1 =
        Ret [CIndex (docIndex apos ++ "en") "aposDoc" "x";
             CBody [("title", VStr "Hello World");
                    ("titleESExact", VStr "Hello World")]]).
Proof.
  split; [|split].
  - intros apos d f body Hfree Hf Hbody Hgood.
    pose proof (project_not_function apos d body f Hbody Hf) as Hfun.
    exists (is_small (doc_get d f)).
    pose proof (small_not_function _ Hfun) as Hsmall.
    split; [done|]. split; [by apply small_Ret|].
    by apply (project_shadow_key apos d).
  - intros apos d f st Hf Hfun. split; [by apply small_function|].
    apply getBulk_throws, project_throws, Exists_exists. by exists f.
  - intros apos st Hfields Hfresh.
    rewrite (getBulk_explicit apos Sample.hello
               [("title", VStr "Hello World"); ("titleESExact", VStr "Hello World")]
               "en"); [| |done..].
    + by rewrite getLocaleIndex_fresh.
    + unfold project. by rewrite Hfields.
Qed.

Lemma shadow_key_rule_witness :
  (exists b : bool,
      small (VStr "Hello World") = Ret b /\
      Obj.lookup [("title", VStr "Hello World"); ("titleESExact", VStr "Hello World")]
                 "titleESExact"
        = if b then Some (VStr "Hello World") else None) /\
  getBulkIndexCommandsForDoc Sample.inheriting Sample.hello Sample.fresh
    = (Throw length_of_undefined, Sample.fresh) /\
  (getBulkIndexCommandsForDoc Sample.titled Sample.hello Sample.fresh).1 =
    Ret [CIndex "siteaposdocsen" "aposDoc" "x";
         CBody [("title", VStr "Hello World"); ("titleESExact", VStr "Hello World")]].
Proof.
  destruct shadow_key_rule as (H1 & H2 & H3). split; [|split].
  - destruct (H1 Sample.titled Sample.hello "title"
                [("title", VStr "Hello World"); ("titleESExact", VStr "Hello World")])
      as (b & Hb & _ & Hk);
      [by_compute | by_compute | by vm_compute | by vm_compute |].
    by exists b.
  - apply (H2 Sample.inheriting Sample.hello "toString" Sample.fresh);
      [by_compute | by vm_compute].
  - apply (H3 Sample.titled Sample.fresh); by vm_compute.
Defined.

(** C1 (as the spec words it) fails: the body of the example has no key
    [titleExact]. *)
Lemma shadow_key_rule_counterexample :
  ~ (exists _index,
        (getBulkIndexCommandsForDoc Sample.titled Sample.hello Sample.fresh).1 =
          Ret [CIndex _index "aposDoc" "x";
               CBody [("title", VStr "Hello World");
                      ("titleExact", VStr "Hello World")]]).
Proof. intros [_index H]. vm_compute in H. discriminate H. Qed.






(** C9 (as the code has it): whatever the field set, no body that is
    emitted has the key [_id], and every action descriptor carries the
    document's identifier.  The shadow key of [_id] is not removed: when
    [_id] is a configured field and the identifier passes the size test,
    every emitted body has the key [_idESExact]. *)
Theorem identifier_not_in_body (apos : host) (d : doc) (st st' : state)
    (cmds : list command) :
  getBulkIndexCommandsForDoc apos d st = (Ret cmds, st') ->
  (forall body, CBody body ∈ cmds -> Obj.lookup body "_id" = None) /\
  (forall _index _type _id, CIndex _index _type _id ∈ cmds -> _id = doc_id d) /\
  ("_id" ∈ fields apos -> small (VStr (doc_id d)) = Ret true ->
   forall body, CBody body ∈ cmds -> is_Some (Obj.lookup body "_idESExact")).
Proof.
  intros (_ & body0 & names & Hbody0 & ->)%getBulk_Ret. split; [|split].
  - intros body [[= ->]|[name [=]]]%elem_of_bulk_commands.
    by apply (project_no_id apos d).
  - intros _index _type _id [[=]|[name [= _ _ ->]]]%elem_of_bulk_commands. done.
  - intros Hid Hsmall body [[= ->]|[name [=]]]%elem_of_bulk_commands.
    apply (project_has_keys apos d body0 "_id"); [done..|].
    change (doc_get d "_id") with (VStr (doc_id d)).
    unfold is_small. by rewrite Hsmall.
Qed.

Lemma identifier_not_in_body_witness :
  (forall body,
      CBody body ∈ [CIndex "siteaposdocsdefault" "aposDoc" "x"; CBody [("_idESExact", VStr "x")]] ->
      Obj.lookup body "_id" = None) /\
  (forall body,
      CBody body ∈ [CIndex "siteaposdocsdefault" "aposDoc" "x"; CBody [("_idESExact", VStr "x")]] ->
      is_Some (Obj.lookup body "_idESExact")).
Proof.
  destruct (identifier_not_in_body Sample.with_id Sample.short_title Sample.fresh
              (getBulkIndexCommandsForDoc Sample.with_id Sample.short_title Sample.fresh).2
              [CIndex "siteaposdocsdefault" "aposDoc" "x"; CBody [("_idESExact", VStr "x")]])
    as (H1 & _ & H3); [by vm_compute|].
  split; [exact H1|]. apply H3; [by_compute | by vm_compute].
Defined.

(** C9 (as the spec words it) fails: with [_id] among the fields the body
    keeps the shadow key of the identifier. *)
Lemma identifier_not_in_body_counterexample :
  ~ (forall (apos : host) (d : doc) (st st' : state) (cmds : list command) (body : obj),
        getBulkIndexCommandsForDoc apos d st = (Ret cmds, st') ->
        CBody body ∈ cmds ->
        Obj.lookup body "_id" = None /\ Obj.lookup body (shadow "_id") = None).
Proof.
  intros H.
  destruct (H Sample.with_id Sample.short_title Sample.fresh
              (getBulkIndexCommandsForDoc Sample.with_id Sample.short_title Sample.fresh).2
              [CIndex "siteaposdocsdefault" "aposDoc" "x"; CBody [("_idESExact", VStr "x")]]
              [("_idESExact", VStr "x")]) as [_ H2].
  - by vm_compute.
  - apply elem_of_cons. right. apply elem_of_cons. by left.
  - vm_compute in H2. discriminate H2.
Qed.

(** C10 (as the code has it): a configured field for which the document
    answers [undefined] is indexed all the same: in every body that the
    projection returns its key and its shadow key are present, and in a
    field set without name clashes both hold [undefined].  A field that
    the document does not have answers [undefined] unless it is named like
    a member of [Object.prototype]: for the name of one of its functions
    the document answers that function and the builder raises a TypeError,
    and for [__proto__] it answers the prototype, an object, which is left
    out. *)
Theorem absent_field_projected (apos : host) (d : doc) (f : string) :
  f ∈ fields apos ->
  (forall body : obj,
      doc_get d f = VUndefined -> f <> "__proto__" ->
      project apos d = Ret body ->
      is_Some (Obj.lookup body f) /\
      is_Some (Obj.lookup body (shadow f)) /\
      (shadow_free (fields apos) ->
       Obj.lookup body f = Some VUndefined /\
       Obj.lookup body (shadow f) = Some VUndefined)) /\
  (Obj.lookup (doc_props d) f = None -> f <> "_id" ->
   doc_get d f = Obj.inherited f /\
   (f ∉ "__proto__" :: Obj.prototype_functions -> doc_get d f = VUndefined) /\
   (f ∈ Obj.prototype_functions ->
    forall st,
      getBulkIndexCommandsForDoc apos d st = (Throw length_of_undefined, st)) /\
   (f = "__proto__" ->
    good (doc_get d f) = false /\
    forall body, project apos d = Ret body ->
      Obj.lookup body f = None /\
      (shadow_free (fields apos) -> Obj.lookup body (shadow f) = None))).
Proof.
  intros Hf. split.
  - intros body Hv Hproto Hbody.
    assert (f <> "_id") as Hid.
    { intros ->. unfold doc_get in Hv. done. }
    destruct (project_has_keys apos d body f Hbody Hf) as [H1 H2]; [by rewrite Hv|].
    split; [by apply H1|]. split; [apply H2; by rewrite Hv|].
    intros Hfree.
    rewrite (project_field_key apos d), (project_shadow_key apos d)
      by (done || by rewrite Hv).
    by rewrite Hv.
  - intros Hown Hid.
    assert (doc_get d f = Obj.inherited f) as Hget.
    { unfold doc_get, Obj.get. apply String.eqb_neq in Hid as ->. by rewrite Hown. }
    split; [done|]. rewrite Hget. split; [|split].
    + intros Hno. apply not_elem_of_cons in Hno as [Hproto Hno].
      unfold Obj.inherited. apply String.eqb_neq in Hproto as ->.
      by rewrite bool_decide_eq_false_2.
    + intros Hin st. apply getBulk_throws, project_throws, Exists_exists.
      exists f. split; [done|]. unfold reads_function. rewrite Hget.
      unfold Obj.inherited.
      destruct (String.eqb_spec f "__proto__") as [->|_].
      { exfalso. revert Hin. by_compute. }
      by rewrite bool_decide_eq_true_2.
    + intros ->. split; [done|]. intros body Hbody.
      split; [by apply (project_no_proto apos d)|]. intros Hfree.
      apply (project_shadowless apos d); [done..|]. by rewrite Hget.
Qed.

Lemma absent_field_projected_witness :
  (Obj.lookup [("title", VUndefined); ("titleESExact", VUndefined)] "title"
     = Some VUndefined /\
   Obj.lookup [("title", VUndefined); ("titleESExact", VUndefined)] "titleESExact"
     = Some VUndefined) /\
  getBulkIndexCommandsForDoc Sample.inheriting (Doc "x" []) Sample.fresh
    = (Throw length_of_undefined, Sample.fresh).
Proof.
  split.
  - destruct (absent_field_projected Sample.titled (Doc "x" []) "title")
      as [H _]; [by_compute|].
    destruct (H [("title", VUndefined); ("titleESExact", VUndefined)])
      as (_ & _ & H'); [by vm_compute | done | by vm_compute |].
    apply H'. by_compute.
  - destruct (absent_field_projected Sample.inheriting (Doc "x" []) "toString")
      as [_ H]; [by_compute|].
    destruct H as (_ & _ & H & _); [done | done |].
    apply H. by_compute.
Defined.

(** C10 (as the spec words it) fails: with the fields [titleESExact] and
    [title], in this order, the document [{_id: "x", title: "a"}] has no
    [titleESExact], and the body binds that key to ["a"]. *)
Lemma absent_field_projected_counterexample :
  ~ (forall (apos : host) (d : doc) (f : string) (body : obj),
        f ∈ fields apos -> doc_get d f = VUndefined ->
        project apos d = Ret body ->
        Obj.lookup body f = Some VUndefined /\
        Obj.lookup body (shadow f) = Some VUndefined).
Proof.
  intros H.
  destruct (H Sample.clashing Sample.short_title "titleESExact"
              [("titleESExact", VStr "a"); ("titleESExactESExact", VUndefined);
               ("title", VStr "a")]) as [H1 _];
    [by_compute | by vm_compute | by vm_compute |].
  vm_compute in H1. discriminate H1.
Qed.

(** ** Index settings *)

Lemma merge_fold (object source : obj) :
  merge object source = fold_left merge_key source object.
Proof.
  unfold merge. simpl. revert object.
  induction source as [|[k s] source IH]; intros object; simpl; [done|].
  apply IH.
Qed.

Lemma merge_nil_r (object : obj) : merge object [] = object.
Proof. reflexivity. Qed.

Lemma merge_value_obj (d s : obj) :
  merge_value (Some (VObj d)) (VObj s) = VObj (merge d s).
Proof. reflexivity. Qed.

Lemma merge_value_scalar (objValue : option value) (s : value) :
  scalar s = true -> merge_value objValue s = s.
Proof. by destruct s. Qed.

(** What [_.merge] leaves under one key. *)
Lemma lookup_merge (object source : obj) (k : string) :
  NoDup (Obj.keys source) ->
  Obj.lookup (merge object source) k =
  match Obj.lookup source k with
  | Some s => Some (merge_value (Obj.lookup object k) s)
  | None => Obj.lookup object k
  end.
Proof.
  rewrite merge_fold. revert object.
  induction source as [|[k0 s0] source IH]; intros object Hdup; simpl; [done|].
  apply NoDup_cons in Hdup as [Hk0 Hdup]. rewrite IH by done.
  unfold merge_key. simpl in *. rewrite ObjFacts.lookup_set.
  destruct (String.eqb_spec k0 k) as [->|Hne]; [|done].
  apply ObjFacts.lookup_None_keys in Hk0. by rewrite Hk0.
Qed.

Lemma lookup_merge_absent (object source : obj) (k : string) :
  Obj.lookup source k = None ->
  Obj.lookup (merge object source) k = Obj.lookup object k.
Proof.
  rewrite merge_fold. revert object.
  induction source as [|[k0 s0] source IH]; intros object; simpl; [done|].
  destruct (String.eqb_spec k0 k) as [->|Hne]; [done|]. intros H.
  rewrite IH by done. unfold merge_key. simpl.
  by rewrite ObjFacts.lookup_set_ne.
Qed.

Lemma merge_value_arr (da sa : list value) :
  merge_value (Some (VArr da)) (VArr sa) = VArr (merge_items da sa).
Proof. reflexivity. Qed.

Lemma length_merge_items (da sa : list value) :
  length (merge_items da sa) = length da `max` length sa.
Proof.
  revert da. induction sa as [|s sa IH]; intros da; simpl; [lia|].
  destruct da as [|d da]; simpl; rewrite IH; simpl; lia.
Qed.

Lemma lookup_merge_items (da sa : list value) (i : nat) :
  merge_items da sa !! i =
  match sa !! i with
  | Some s => Some (merge_value (da !! i) s)
  | None => da !! i
  end.
Proof.
  revert da i. induction sa as [|s sa IH]; intros da i; simpl; [done|].
  destruct da as [|d da], i as [|i]; simpl; try done; by rewrite IH.
Qed.

(** An array of the source under a key. *)
Lemma lookup_merge_arr (object source : obj) (k : string) (sa : list value) :
  NoDup (Obj.keys source) ->
  Obj.lookup source k = Some (VArr sa) ->
  Obj.lookup (merge object source) k =
    Some (VArr (merge_items (array_at object k) sa)).
Proof.
  intros Hdup Hs. rewrite lookup_merge by done. by rewrite Hs.
Qed.

Section Settings.

Variable apos : host.

(** C7 (as the code has it): the settings of a locale are the four layers
    (global index settings, global analyzer override, settings of the
    locale without a trailing [-draft], analyzer override of that locale)
    merged from left to right into an empty object.  In each merge a
    scalar of the later layer replaces what the earlier layers hold under
    its key, two objects under one key are merged recursively, and the
    keys that the later layer does not have are kept.  An array of the
    later layer does not replace an array of the earlier layers: the two
    are merged index by index, so that the result is as long as the longer
    of the two, the elements of the later array are merged onto the
    elements at their positions (a scalar element replaces the one that
    is there), and the elements past the end of the later array are
    kept. *)
Theorem getLocaleSettings_layers (locale : string) :
  getLocaleSettings apos locale = getLocaleSettings_spec apos locale /\
  (forall (object source : obj) (k : string) (s : value),
      NoDup (Obj.keys source) ->
      Obj.lookup source k = Some s -> scalar s = true ->
      Obj.lookup (merge object source) k = Some s) /\
  (forall (object source d s : obj) (k : string),
      NoDup (Obj.keys source) ->
      Obj.lookup object k = Some (VObj d) ->
      Obj.lookup source k = Some (VObj s) ->
      Obj.lookup (merge object source) k = Some (VObj (merge d s))) /\
  (forall (object source : obj) (k : string),
      Obj.lookup source k = None ->
      Obj.lookup (merge object source) k = Obj.lookup object k) /\
  (forall (object source : obj) (k : string) (sa : list value),
      NoDup (Obj.keys source) ->
      Obj.lookup source k = Some (VArr sa) ->
      (forall o, Obj.lookup object k <> Some (VObj o)) ->
      exists l,
        Obj.lookup (merge object source) k = Some (VArr l) /\
        length l = length (array_at object k) `max` length sa /\
        (forall i s, sa !! i = Some s ->
           l !! i = Some (merge_value (array_at object k !! i) s)) /\
        (forall i s, sa !! i = Some s -> scalar s = true -> l !! i = Some s) /\
        (forall i, length sa <= i -> l !! i = array_at object k !! i)).
Proof.
  split; [|split; [|split; [|split]]].
  - unfold getLocaleSettings, getLocaleSettings_spec, settings_layers, opts.
    simpl.
    destruct (truthy (opt_analyzer _)); simpl;
      destruct (opt_localeIndexSettings _) as [m|]; simpl;
      destruct (opt_analyzers _) as [a|]; simpl;
      try destruct (truthy (Obj.get a _)); reflexivity.
  - intros object source k s Hdup Hs Hscalar.
    rewrite lookup_merge, Hs by done. by rewrite merge_value_scalar.
  - intros object source d s k Hdup Hd Hs.
    by rewrite lookup_merge, Hs, Hd by done.
  - apply lookup_merge_absent.
  - intros object source k sa Hdup Hs _.
    exists (merge_items (array_at object k) sa).
    split; [by apply lookup_merge_arr|]. split; [apply length_merge_items|].
    split; [|split].
    + intros i s Hi. by rewrite lookup_merge_items, Hi.
    + intros i s Hi Hscalar.
      by rewrite lookup_merge_items, Hi, merge_value_scalar.
    + intros i Hi. rewrite lookup_merge_items.
      by rewrite (lookup_ge_None_2 sa i).
Qed.

End Settings.

(** The settings of [fr-draft] with all four layers configured, and
    merges of scalars, objects and arrays. *)
Lemma getLocaleSettings_layers_witness :
  getLocaleSettings Sample.layered "fr-draft" =
    [("number_of_shards", VNum 2);
     ("analysis", VObj [("analyzer", VStr "french");
                        ("filter", VObj [("stop", VBool true);
                                         ("elision", VBool true)])])] /\
  Obj.lookup (merge [("a", VNum 1); ("b", VObj [("x", VNum 1)])]
                    [("a", VNum 2); ("b", VObj [("y", VNum 3)])]) "a" = Some (VNum 2) /\
  Obj.lookup (merge [("a", VNum 1); ("b", VObj [("x", VNum 1)])]
                    [("a", VNum 2); ("b", VObj [("y", VNum 3)])]) "b" =
    Some (VObj (merge [("x", VNum 1)] [("y", VNum 3)])) /\
  Obj.lookup (merge [("a", VNum 1); ("c", VNum 7)] [("a", VNum 2)]) "c" = Some (VNum 7) /\
  (exists l,
      Obj.lookup (merge [("a", VArr [VNum 1; VNum 2; VNum 3])] [("a", VArr [VNum 9])]) "a"
        = Some (VArr l) /\
      length l = 3 /\ l !! 0 = Some (VNum 9) /\ l !! 2 = Some (VNum 3)).
Proof.
  destruct (getLocaleSettings_layers Sample.layered "fr-draft")
    as (H1 & H2 & H3 & H4 & H5).
  split; [|split; [|split; [|split]]].
  - rewrite H1. by vm_compute.
  - apply H2; [by_compute | done | done].
  - apply H3; [by_compute | done | done].
  - by apply H4.
  - destruct (H5 [("a", VArr [VNum 1; VNum 2; VNum 3])] [("a", VArr [VNum 9])]
                 "a" [VNum 9]) as (l & Hl & Hlen & _ & Hscalar & Hrest);
      [by_compute | done | done |].
    exists l. split; [done|]. split; [done|]. split.
    + by apply Hscalar.
    + rewrite Hrest; [done|simpl; lia].
Defined.

(** C7 (as the spec words it) fails: the list that the settings of the
    locale [fr] hold under [stopwords] does not replace the list of the
    global settings, it is merged onto it. *)
Lemma getLocaleSettings_layers_counterexample :
  ~ (forall (apos : host) (locale : string) (i : nat) (layer : obj)
            (k : string) (v : value),
        settings_layers apos locale !! i = Some layer ->
        Obj.lookup layer k = Some v ->
        (forall o, v <> VObj o) ->
        (forall j later, i < j -> settings_layers apos locale !! j = Some later ->
                         Obj.lookup later k = None) ->
        Obj.lookup (getLocaleSettings apos locale) k = Some v).
Proof.
  intros H.
  specialize (H Sample.listed "fr" 2 [("stopwords", VArr [VStr "z"])]
                "stopwords" (VArr [VStr "z"])).
  assert (Obj.lookup (getLocaleSettings Sample.listed "fr") "stopwords"
          = Some (VArr [VStr "z"; VStr "b"; VStr "c"])) as Hreal by by vm_compute.
  rewrite Hreal in H. discriminate H; [by vm_compute | by vm_compute | done |].
  intros j later Hj Hlater.
  destruct j as [|[|[|[|j]]]]; try lia; [|by vm_compute in Hlater].
  vm_compute in Hlater. by injection Hlater as <-.
Qed.

(** ** Events and fuel of the computations *)

Section Traces.

Context {A B : Type}.

Lemma emits_ret (P : event -> bool) (a : A) : emits P (ret a).
Proof. intros st. exists []. by rewrite app_nil_r. Qed.

Lemma emits_throw (P : event -> bool) (msg : string) : emits P (@throw A msg).
Proof. intros st. exists []. by rewrite app_nil_r. Qed.

Lemma emits_bind (P : event -> bool) (c : M A) (k : A -> M B) :
  emits P c -> (forall a, emits P (k a)) -> emits P (bind c k).
Proof.
  intros Hc Hk st. unfold bind. destruct (Hc st) as (evs & Htr & Hevs).
  destruct (c st) as [[a| |] st1]; simpl in *; [|by exists evs..].
  destruct (Hk a st1) as (evs' & Htr' & Hevs').
  exists (evs ++ evs')%list. rewrite Htr', Htr, <- app_assoc.
  split; [done|]. by apply Forall_app.
Qed.

Lemma emits_mono (P Q : event -> bool) (c : M A) :
  (forall e, P e -> Q e) -> emits P c -> emits Q c.
Proof.
  intros HPQ Hc st. destruct (Hc st) as (evs & Htr & Hevs).
  exists evs. split; [done|]. eapply Forall_impl; [done|]. apply HPQ.
Qed.

Lemma terminates_ret (a : A) : terminates (ret a).
Proof. by intros st. Qed.

Lemma terminates_throw (msg : string) : terminates (@throw A msg).
Proof. by intros st. Qed.

Lemma terminates_bind (c : M A) (k : A -> M B) :
  terminates c -> (forall a, terminates (k a)) -> terminates (bind c k).
Proof.
  intros Hc Hk st. unfold bind. specialize (Hc st).
  destruct (c st) as [[a| |] st1]; simpl in *; [apply Hk|done..].
Qed.

End Traces.

Lemma emits_mapM {A B} (P : event -> bool) (f : A -> M B) (l : list A) :
  (forall a, emits P (f a)) -> emits P (mapM f l).
Proof.
  intros Hf. induction l as [|a l IH]; simpl; [apply emits_ret|].
  apply emits_bind; [done|]. intros b.
  apply emits_bind; [done|]. intros bs. apply emits_ret.
Qed.

Lemma terminates_mapM {A B} (f : A -> M B) (l : list A) :
  (forall a, terminates (f a)) -> terminates (mapM f l).
Proof.
  intros Hf. induction l as [|a l IH]; simpl; [apply terminates_ret|].
  apply terminates_bind; [done|]. intros b.
  apply terminates_bind; [done|]. intros bs. apply terminates_ret.
Qed.

Lemma emits_eachM {A B} (P : event -> bool) (f : B -> A -> M B) (l : list A) (acc : B) :
  (forall b a, emits P (f b a)) -> emits P (eachM f l acc).
Proof.
  intros Hf. revert acc. induction l as [|a l IH]; intros acc; simpl.
  - apply emits_ret.
  - apply emits_bind; [done|]. intros b. apply IH.
Qed.

Lemma terminates_eachM {A B} (f : B -> A -> M B) (l : list A) (acc : B) :
  (forall b a, terminates (f b a)) -> terminates (eachM f l acc).
Proof.
  intros Hf. revert acc. induction l as [|a l IH]; intros acc; simpl.
  - apply terminates_ret.
  - apply terminates_bind; [done|]. intros b. apply IH.
Qed.

Lemma emits_emit (P : event -> bool) (e : event) : P e -> emits P (emit e).
Proof. intros He st. exists [e]. split; [done|]. by apply Forall_singleton. Qed.

Lemma terminates_emit (e : event) : terminates (emit e).
Proof. by intros st. Qed.



Lemma finds_app (evs evs' : list event) : finds (evs ++ evs') = (finds evs ++ finds evs')%list.
Proof. apply omap_app. Qed.

Lemma finds_batch (evs : list event) : Forall batch_event evs -> finds evs = [].
Proof.
  induction 1 as [|e evs He _ IH]; [done|].
  destruct e; first [done | exact IH].
Qed.

Section StageTraces.

Variable apos : host.

Lemma emits_getLocaleIndex (P : event -> bool) (l : string) :
  emits P (getLocaleIndex apos l).
Proof.
  intros st. exists []. rewrite app_nil_r. split; [|done].
  unfold getLocaleIndex.
  destruct (indexNamesSeen st !! _); [|done]. by destruct (negb _ && negb _).
Qed.

Lemma terminates_getLocaleIndex (l : string) : terminates (getLocaleIndex apos l).
Proof.
  intros st. unfold getLocaleIndex.
  destruct (indexNamesSeen st !! _); [|done]. by destruct (negb _ && negb _).
Qed.

Lemma emits_lift {A} (P : event -> bool) (o : outcome A) : emits P (lift o).
Proof. intros st. exists []. by rewrite app_nil_r. Qed.

Lemma terminates_project (d : doc) : terminates (lift (project apos d)).
Proof.
  intros st. unfold lift. simpl.
  by destruct (project_cases apos d) as [[_ [body ->]]|[_ ->]].
Qed.

Lemma emits_getBulk (P : event -> bool) (d : doc) :
  emits P (getBulkIndexCommandsForDoc apos d).
Proof.
  unfold getBulkIndexCommandsForDoc.
  apply emits_bind; [apply emits_lift|]. intros body. destruct (truthy _).
  - apply emits_bind; [|intros; apply emits_ret].
    destruct (doc_get d "workflowLocale");
      first [apply emits_getLocaleIndex | apply emits_throw].
  - apply emits_eachM. intros acc l. unfold push_locale.
    apply emits_bind; [apply emits_getLocaleIndex|intros; apply emits_ret].
Qed.

Lemma terminates_getBulk (d : doc) : terminates (getBulkIndexCommandsForDoc apos d).
Proof.
  unfold getBulkIndexCommandsForDoc.
  apply terminates_bind; [apply terminates_project|]. intros body.
  destruct (truthy _).
  - apply terminates_bind; [|intros; apply terminates_ret].
    destruct (doc_get d "workflowLocale");
      first [apply terminates_getLocaleIndex | apply terminates_throw].
  - apply terminates_eachM. intros acc l. unfold push_locale.
    apply terminates_bind; [apply terminates_getLocaleIndex|intros; apply terminates_ret].
Qed.

Lemma emits_call (P : event -> bool) (e : event) (answer : option error) :
  P e -> emits P (call e answer).
Proof.
  intros He. unfold call. apply emits_bind; [by apply emits_emit|].
  intros _. apply emits_ret.
Qed.

Lemma terminates_call (e : event) (answer : option error) : terminates (call e answer).
Proof.
  unfold call. apply terminates_bind; [apply terminates_emit|]. intros _. apply terminates_ret.
Qed.

Lemma emits_indexBatch (reindexed : nat) (docs : list doc) :
  emits batch_event (indexBatch apos reindexed docs).
Proof.
  unfold indexBatch. apply emits_bind; [by apply emits_emit|]. intros _.
  apply emits_bind; [apply emits_mapM, emits_getBulk|]. intros bodies.
  by apply emits_call.
Qed.

Lemma terminates_indexBatch (reindexed : nat) (docs : list doc) :
  terminates (indexBatch apos reindexed docs).
Proof.
  unfold indexBatch. apply terminates_bind; [apply terminates_emit|]. intros _.
  apply terminates_bind; [apply terminates_mapM, terminates_getBulk|]. intros bodies.
  apply terminates_call.
Qed.

End StageTraces.

(** ** Keyset pagination of the index stage *)

Lemma ceil_div_zero (b : nat) : 0 < b -> ceil_div 0 b = 0.
Proof. intros Hb. unfold ceil_div. apply Nat.div_small. lia. Qed.

Lemma ceil_div_step (n b : nat) :
  0 < b -> 0 < n -> ceil_div (n - min b n) b + 1 = ceil_div n b.
Proof.
  intros Hb Hn. unfold ceil_div.
  destruct (decide (n <= b)) as [Hle|Hgt].
  - rewrite Nat.min_r by done. replace (n - n + b - 1) with (b - 1) by lia.
    rewrite Nat.div_small by lia.
    replace (n + b - 1) with ((n - 1) + 1 * b) by lia.
    rewrite Nat.div_add by lia. rewrite Nat.div_small by lia. done.
  - rewrite Nat.min_l by lia.
    replace (n + b - 1) with ((n - b + b - 1) + 1 * b) by lia.
    rewrite Nat.div_add by lia. done.
Qed.

Lemma filter_none {A} (P : A -> Prop) `{!forall x, Decision (P x)} (l : list A) :
  Forall (fun x => ~ P x) l -> filter P l = [].
Proof.
  induction 1 as [|x l Hx _ IH]; [done|]. by rewrite filter_cons_False.
Qed.

Lemma filter_all {A} (P : A -> Prop) `{!forall x, Decision (P x)} (l : list A) :
  Forall P l -> filter P l = l.
Proof.
  induction 1 as [|x l Hx _ IH]; [done|]. by rewrite filter_cons_True, IH.
Qed.

Lemma le_empty (s : string) : String.le s EmptyString -> s = EmptyString.
Proof. by destruct s. Qed.

Section Pagination.

Variable apos : host.

Lemma batchSize_pos : 0 < batchSize apos.
Proof. unfold batchSize. destruct (opt_batchSize _) as [[|n]|]; lia. Qed.

Lemma id_gt_le (cur : string) (d : doc) : id_gt cur d -> String.le cur (doc_id d).
Proof. unfold id_gt. intros H. by destruct (total String.le cur (doc_id d)). Qed.

Lemma id_gt_mono (cur cur' : string) (d : doc) :
  String.le cur cur' -> id_gt cur' d -> id_gt cur d.
Proof. unfold id_gt. intros Hle H H'. apply H. by etrans. Qed.

Lemma find_page_sorted (cur : string) (n : nat) :
  find_page apos cur n =
    take n (merge_sort id_le (remaining apos cur)).
Proof. reflexivity. Qed.

Lemma find_page_length (cur : string) (n : nat) :
  length (find_page apos cur n) = min n (length (remaining apos cur)).
Proof. by rewrite find_page_sorted, length_take, merge_sort_Permutation. Qed.

Lemma elem_of_find_page (cur : string) (n : nat) (d : doc) :
  d ∈ find_page apos cur n -> d ∈ store apos /\ id_gt cur d.
Proof.
  rewrite find_page_sorted. intros Hd%subseteq_take.
  rewrite merge_sort_Permutation in Hd.
  apply list_elem_of_filter in Hd. tauto.
Qed.

(** The cursor moves past at least one document. *)
Lemma remaining_shrinks (cur : string) (n : nat) (dl : doc) :
  last (find_page apos cur n) = Some dl ->
  length (remaining apos (doc_id dl)) < length (remaining apos cur).
Proof.
  intros Hdl%last_Some_elem_of.
  assert (dl ∈ remaining apos cur) as Hin.
  { rewrite find_page_sorted in Hdl. apply subseteq_take in Hdl.
    by rewrite merge_sort_Permutation in Hdl. }
  pose proof Hin as [Hgt _]%list_elem_of_filter.
  unfold remaining at 1.
  rewrite <- (list_filter_filter_l _ (id_gt cur)).
  - apply (length_filter_lt _ _ dl); [done|]. unfold id_gt. intros H. by apply H.
  - intros d. apply id_gt_mono. by apply id_gt_le.
Qed.

(** With distinct identifiers it moves past exactly the page. *)
Lemma remaining_after_page (cur : string) (n : nat) (dl : doc) :
  NoDup (map doc_id (store apos)) ->
  last (find_page apos cur n) = Some dl ->
  length (remaining apos (doc_id dl)) =
    length (remaining apos cur) - length (find_page apos cur n).
Proof.
  intros Hdup Hdl.
  pose proof (last_Some_elem_of _ _ Hdl) as [_ Hgt]%elem_of_find_page.
  set (sorted := merge_sort id_le (remaining apos cur)).
  assert (StronglySorted id_le sorted) as Hsorted
    by (apply StronglySorted_merge_sort; apply _).
  assert (sorted ≡ₚ remaining apos cur) as Hperm by apply merge_sort_Permutation.
  assert (NoDup (map doc_id sorted)) as Hdup'.
  { rewrite Hperm. eapply sublist_NoDup; [done|].
    apply (fmap_sublist doc_id). apply sublist_filter. }
  rewrite find_page_sorted in *. fold sorted in Hdl |- *.
  rewrite <- (take_drop n sorted) in Hsorted, Hdup', Hperm.
  set (page := take n sorted) in *. set (rest := drop n sorted) in *.
  apply last_Some in Hdl as [init Hinit].
  unfold remaining at 1.
  rewrite <- (list_filter_filter_l _ (id_gt cur))
    by (intros d; apply id_gt_mono; by apply id_gt_le).
  fold (remaining apos cur). rewrite <- Hperm, filter_app, !length_app.
  assert (filter (id_gt (doc_id dl)) page = []) as ->.
  { apply filter_none, Forall_forall. intros d Hd Hgt'. apply Hgt'.
    rewrite Hinit in Hd, Hsorted.
    apply elem_of_app in Hd as [Hd|Hd%list_elem_of_singleton].
    - apply StronglySorted_app_1_l in Hsorted.
      eapply (StronglySorted_app_1_elem_of id_le); [done..|].
      by apply list_elem_of_singleton.
    - by subst d. }
  assert (filter (id_gt (doc_id dl)) rest = rest) as ->.
  { apply filter_all, Forall_forall. intros d Hd Hle.
    assert (dl ∈ page) as Hdl.
    { rewrite Hinit. apply elem_of_app. right. by apply list_elem_of_singleton. }
    assert (id_le dl d) as Hle'
      by by eapply (StronglySorted_app_1_elem_of id_le).
    assert (doc_id d = doc_id dl) as Heq by by apply (anti_symm String.le).
    rewrite map_app in Hdup'. apply NoDup_app in Hdup' as (_ & Hdisj & _).
    apply (Hdisj (doc_id dl)).
    - apply list_elem_of_fmap. by exists dl.
    - apply list_elem_of_fmap. by exists d. }
  simpl. lia.
Qed.

(** Without identifiers that are empty the first cursor is below every
    document. *)
Lemma remaining_all :
  Forall (fun d => doc_id d <> EmptyString) (store apos) ->
  remaining apos EmptyString = store apos.
Proof.
  intros H. unfold remaining. apply filter_all.
  eapply Forall_impl; [done|]. intros d Hd Hle. by apply Hd, le_empty.
Qed.

Lemma nextBatch_S (fuel : nat) (cur : string) (reindexed : nat) :
  nextBatch apos (S fuel) cur reindexed =
  (emit (EvFind cur (batchSize apos)) ;;;
   match db_find apos cur with
   | Some err => ret (Some err)
   | None =>
       match find_page apos cur (batchSize apos) with
       | [] => ret None
       | _ :: _ =>
           r <- indexBatch apos
                  (reindexed + length (find_page apos cur (batchSize apos)))
                  (find_page apos cur (batchSize apos)) ;;
           match r with
           | Some err => ret (Some err)
           | None =>
               nextBatch apos fuel
                 (last_id (find_page apos cur (batchSize apos)))
                 (reindexed + length (find_page apos cur (batchSize apos)))
           end
       end
   end).
Proof. reflexivity. Qed.

Lemma last_id_cons (d : doc) (page : list doc) :
  exists dl, last (d :: page) = Some dl /\ last_id (d :: page) = doc_id dl.
Proof.
  destruct (last (d :: page)) as [dl|] eqn:Hl.
  - exists dl. unfold last_id. by rewrite Hl.
  - by apply last_None in Hl.
Qed.

(** Fuel above the number of documents beyond the cursor is enough. *)
Lemma terminates_nextBatch (fuel : nat) (cur : string) (reindexed : nat) :
  length (remaining apos cur) < fuel ->
  terminates (nextBatch apos fuel cur reindexed).
Proof.
  revert cur reindexed.
  induction fuel as [|fuel IH]; intros cur reindexed Hfuel; [lia|].
  rewrite nextBatch_S. apply terminates_bind; [apply terminates_emit|]. intros _.
  destruct (db_find apos cur); [apply terminates_ret|].
  destruct (find_page apos cur (batchSize apos)) as [|d page] eqn:Hpage;
    [apply terminates_ret|].
  apply terminates_bind; [apply terminates_indexBatch|].
  intros [err|]; [apply terminates_ret|].
  destruct (last_id_cons d page) as (dl & Hdl & ->). apply IH.
  rewrite <- Hpage in Hdl. apply remaining_shrinks in Hdl. lia.
Qed.

Lemma terminates_index : terminates (index apos).
Proof.
  unfold index, verbose.
  repeat (apply terminates_bind; [apply terminates_emit|]; intros _).
  destruct (db_count apos); [apply terminates_ret|].
  apply terminates_nextBatch.
  pose proof (length_filter (id_gt EmptyString) (store apos)).
  unfold remaining. lia.
Qed.

(** The fetches of a batch loop that ends well. *)
Lemma nextBatch_fetches (fuel : nat) (cur : string) (reindexed : nat)
    (st st' : state) :
  NoDup (map doc_id (store apos)) ->
  nextBatch apos fuel cur reindexed st = (Ret None, st') ->
  exists evs,
    trace st' = (trace st ++ evs)%list /\
    length (finds evs) =
      ceil_div (length (remaining apos cur)) (batchSize apos) + 1 /\
    keyset_chain apos (batchSize apos) cur (finds evs).
Proof.
  intros Hdup. revert cur reindexed st.
  induction fuel as [|fuel IH]; intros cur reindexed st H; [done|].
  rewrite nextBatch_S in H. unfold bind at 1 in H. simpl in H.
  destruct (db_find apos cur) as [err|]; [done|].
  pose proof (find_page_length cur (batchSize apos)) as Hlen.
  pose proof batchSize_pos as Hpos.
  destruct (find_page apos cur (batchSize apos)) as [|d page] eqn:Hpage.
  - injection H as <-. exists [EvFind cur (batchSize apos)].
    split; [done|]. simpl in *.
    replace (length (remaining apos cur)) with 0 by lia.
    rewrite ceil_div_zero by done. by rewrite Hpage.
  - unfold bind in H.
    pose proof (emits_indexBatch apos (reindexed + length (d :: page)) (d :: page)
                  (State (indexNamesSeen st)
                     (trace st ++ [EvFind cur (batchSize apos)])))
      as (evs_b & Htr_b & Hevs_b).
    destruct (indexBatch _ _ _ _) as [[[err|]| |] st2]; try done.
    apply IH in H as (evs & Htr & Hcount & Hchain).
    destruct (last_id_cons d page) as (dl & Hdl & Hid).
    rewrite <- Hpage in Hdl. apply remaining_after_page in Hdl; [|done].
    rewrite Hpage, <- Hid in Hdl.
    exists ([EvFind cur (batchSize apos)] ++ evs_b ++ evs)%list.
    simpl in Htr_b. rewrite Htr, Htr_b, <- !app_assoc. split; [done|].
    rewrite !finds_app, (finds_batch evs_b) by done. simpl.
    rewrite Hpage. split; [|done].
    rewrite Hcount, Hdl, Hlen.
    rewrite <- (ceil_div_step (length (remaining apos cur)) (batchSize apos));
      simpl in *; lia.
Qed.

End Pagination.

(** C3 (as the code has it): the index stage always comes to an end; on a
    store of [N] documents with distinct identifiers, none of them empty,
    and with batch size [B], a run that ends well has issued exactly
    [ceil(N/B) + 1] paged fetch calls: the first asks for the identifiers
    above the empty string, each later one for those above the last
    identifier of the page before it, all with the limit [B], and the
    fetch that gets an empty page is the last one; a page is sorted by
    ascending identifier, no longer than the limit, and holds documents of
    the store above the cursor. *)
Theorem index_pagination :
  (forall apos : host, terminates (index apos)) /\
  (forall (apos : host) (st st' : state),
      NoDup (map doc_id (store apos)) ->
      Forall (fun d => doc_id d <> EmptyString) (store apos) ->
      index apos st = (Ret None, st') ->
      exists evs,
        trace st' = (trace st ++ evs)%list /\
        length (finds evs) =
          ceil_div (length (store apos)) (batchSize apos) + 1 /\
        keyset_chain apos (batchSize apos) EmptyString (finds evs)) /\
  (forall (apos : host) (cur : string) (n : nat),
      length (find_page apos cur n) <= n /\
      StronglySorted id_le (find_page apos cur n) /\
      Forall (fun d => d ∈ store apos /\ id_gt cur d) (find_page apos cur n)).
Proof.
  split; [apply terminates_index|]. split.
  - intros apos st st' Hdup Hids H. unfold index, verbose, bind, emit in H.
    cbn -[nextBatch] in H. destruct (db_count apos); [done|].
    apply nextBatch_fetches in H as (evs & Htr & Hcount & Hchain); [|done].
    simpl in Htr. rewrite remaining_all in Hcount by done.
    exists ([EvVerbose "Indexing all documents";
             EvVerbose "Counting docs for progress display"; EvCount] ++ evs)%list.
    rewrite Htr, <- !app_assoc. split; [done|]. rewrite finds_app. simpl. done.
  - intros apos cur n. split; [|split].
    + rewrite find_page_length. lia.
    + rewrite find_page_sorted.
      apply (StronglySorted_app_1_l id_le _
               (drop n (merge_sort id_le (remaining apos cur)))).
      rewrite take_drop. apply StronglySorted_merge_sort; apply _.
    + apply Forall_forall. intros d. apply elem_of_find_page.
Qed.

(** Three documents fetched two at a time: three fetches. *)
Lemma index_pagination_witness :
  exists evs,
    trace (index Sample.paged Sample.fresh).2 = (trace Sample.fresh ++ evs)%list /\
    length (finds evs) = 3 /\
    keyset_chain Sample.paged 2 EmptyString (finds evs).
Proof.
  destruct index_pagination as (_ & H & _).
  apply (H Sample.paged Sample.fresh (index Sample.paged Sample.fresh).2).
  - by_compute.
  - by_compute.
  - by vm_compute.
Defined.

(** C3 (as the spec words it) fails: three documents in pages of two take
    three fetches, not two. *)
Lemma index_pagination_counterexample :
  ~ (forall (apos : host) (st st' : state),
        NoDup (map doc_id (store apos)) ->
        Forall (fun d => doc_id d <> EmptyString) (store apos) ->
        index apos st = (Ret None, st') ->
        exists evs,
          trace st' = (trace st ++ evs)%list /\
          length (finds evs) = ceil_div (length (store apos)) (batchSize apos)).
Proof.
  intros H.
  destruct (H Sample.paged Sample.fresh (index Sample.paged Sample.fresh).2)
    as (evs & Htr & Hlen); [by_compute | by_compute | by vm_compute |].
  simpl in Htr. rewrite <- Htr in Hlen. vm_compute in Hlen. discriminate Hlen.
Qed.

(** ** The reindex task *)

Section Reindex.

Variable apos : host.

Lemma emits_verbose (P : event -> bool) (s : string) :
  P (EvVerbose s) -> emits P (verbose s).
Proof. apply emits_emit. Qed.

Lemma emits_dropIndexes : emits (stage_event Drop) (dropIndexes apos).
Proof.
  unfold dropIndexes.
  apply emits_bind; [by apply emits_verbose|]. intros _.
  apply emits_bind; [by apply emits_emit|]. intros _.
  destruct (cat_indices apos) as [err|result]; [apply emits_ret|].
  destruct (List.filter _ _); [apply emits_ret|]. by apply emits_call.
Qed.



Lemma emits_nextBatch (fuel : nat) (cur : string) (reindexed : nat) :
  emits (stage_event Index) (nextBatch apos fuel cur reindexed).
Proof.
  revert cur reindexed. induction fuel as [|fuel IH]; intros cur reindexed.
  - intros st. exists []. by rewrite app_nil_r.
  - rewrite nextBatch_S. apply emits_bind; [by apply emits_emit|]. intros _.
    destruct (db_find apos cur); [apply emits_ret|].
    destruct (find_page apos cur (batchSize apos)); [apply emits_ret|].
    apply emits_bind.
    + eapply emits_mono; [|apply emits_indexBatch]. by intros [].
    + intros [err|]; [apply emits_ret|apply IH].
Qed.

Lemma emits_index : emits (stage_event Index) (index apos).
Proof.
  unfold index.
  apply emits_bind; [by apply emits_verbose|]. intros _.
  apply emits_bind; [by apply emits_verbose|]. intros _.
  apply emits_bind; [by apply emits_emit|]. intros _.
  destruct (db_count apos); [apply emits_ret|apply emits_nextBatch].
Qed.







End Reindex.



(** The run of the counterexample: the collision error is the outcome. *)
Example reindexTask_collision :
  (reindexTask Sample.ambiguous Sample.fresh).1 =
    Throw (collision_message "en_gb" "en-gb").
Proof. by vm_compute. Qed.

(** When an index cannot be created, nothing is indexed or refreshed and
    the lock is released. *)
Example reindexTask_refused :
  (reindexTask Sample.refusing Sample.fresh).1 = Ret (Some "boom") /\
  trace (reindexTask Sample.refusing Sample.fresh).2 =
    [EvVerbose "reindex task launched";
     EvLock "apostrophe-elasticsearch-reindex";
     EvVerbose "dropping indexes"; EvCatIndices;
     EvVerbose "creating indexes";
     EvCreate "siteaposdocsdefault" []
       [("title", VObj [("type", VStr "text")]);
        ("titleESExact", VObj [("type", VStr "keyword")])];
     EvUnlock "apostrophe-elasticsearch-reindex"].
Proof. by vm_compute. Qed.

(** * Further properties of the module *)

(** ** The table of the locale index namer *)

Lemma lower_char_idem (c : ascii) : Str.lower_char (Str.lower_char c) = Str.lower_char c.
Proof. destruct c as [[] [] [] [] [] [] [] []]; reflexivity. Qed.

Lemma toLowerCase_idem (s : string) :
  Str.toLowerCase (Str.toLowerCase s) = Str.toLowerCase s.
Proof. induction s as [|c s IH]; simpl; [done|]. by rewrite lower_char_idem, IH. Qed.

(** X1: the namer does not see the case of a locale: a locale and its
    lower-cased form get the same answer and leave the same table; and two
    locales get one index name exactly when their lower-cased forms have
    the same letters a-z in the same order. *)
Theorem getLocaleIndex_ignores_case (apos : host) :
  (forall (l : string) (st : state),
      getLocaleIndex apos l st = getLocaleIndex apos (Str.toLowerCase l) st) /\
  (forall l1 l2 : string,
      index_name apos l1 = index_name apos l2 <->
      Str.strip_non_az (Str.toLowerCase l1) = Str.strip_non_az (Str.toLowerCase l2)).
Proof.
  split.
  - intros l st. unfold getLocaleIndex. by rewrite toLowerCase_idem.
  - intros l1 l2. unfold index_name. split; [|by intros ->].
    apply (inj (String.append (docIndex apos))).
Qed.

Section Table.

Variable apos : host.

Lemma table_kept_refl (st : state) : table_kept st st.
Proof. by intros n l. Qed.

Lemma table_kept_trans (st1 st2 st3 : state) :
  table_kept st1 st2 -> table_kept st2 st3 -> table_kept st1 st3.
Proof. intros H12 H23 n l Hl Hne. apply H23; [by apply H12|done]. Qed.

Lemma table_kept_trace (st : state) (tr : list event) :
  table_kept st (State (indexNamesSeen st) tr).
Proof. by intros n l. Qed.

Lemma keeps_table_ret {A} (a : A) : keeps_table (ret a).
Proof. intros st. apply table_kept_refl. Qed.

Lemma keeps_table_throw {A} (msg : string) : keeps_table (@throw A msg).
Proof. intros st. apply table_kept_refl. Qed.

Lemma keeps_table_emit (e : event) : keeps_table (emit e).
Proof. intros st. apply table_kept_trace. Qed.

Lemma keeps_table_bind {A B} (c : M A) (k : A -> M B) :
  keeps_table c -> (forall a, keeps_table (k a)) -> keeps_table (bind c k).
Proof.
  intros Hc Hk st. unfold bind. specialize (Hc st).
  destruct (c st) as [[a| |] st1]; simpl in *; [|done..].
  eapply table_kept_trans; [done|apply Hk].
Qed.

Lemma keeps_table_mapM {A B} (f : A -> M B) (l : list A) :
  (forall a, keeps_table (f a)) -> keeps_table (mapM f l).
Proof.
  intros Hf. induction l as [|a l IH]; simpl; [apply keeps_table_ret|].
  apply keeps_table_bind; [done|]. intros b.
  apply keeps_table_bind; [done|]. intros bs. apply keeps_table_ret.
Qed.

Lemma keeps_table_eachM {A B} (f : B -> A -> M B) (l : list A) (acc : B) :
  (forall b a, keeps_table (f b a)) -> keeps_table (eachM f l acc).
Proof.
  intros Hf. revert acc. induction l as [|a l IH]; intros acc; simpl.
  - apply keeps_table_ret.
  - apply keeps_table_bind; [done|]. intros b. apply IH.
Qed.

Lemma keeps_table_series (tasks : list (M (option error))) :
  Forall keeps_table tasks -> keeps_table (series tasks).
Proof.
  induction 1 as [|t tasks Ht _ IH]; simpl; [apply keeps_table_ret|].
  apply keeps_table_bind; [done|]. intros [err|]; [apply keeps_table_ret|done].
Qed.

Lemma keeps_table_call (e : event) (answer : option error) : keeps_table (call e answer).
Proof.
  unfold call. apply keeps_table_bind; [apply keeps_table_emit|].
  intros _. apply keeps_table_ret.
Qed.

Lemma keeps_table_getLocaleIndex (l : string) : keeps_table (getLocaleIndex apos l).
Proof.
  intros st n s Hs Hne. unfold getLocaleIndex. cbv zeta.
  set (name := docIndex apos ++ Str.strip_non_az (Str.toLowerCase l)).
  destruct (indexNamesSeen st !! name) as [s'|] eqn:Hs'.
  - destruct (negb _ && negb _) eqn:Hguard; simpl; [done|].
    destruct (decide (name = n)) as [<-|Hn]; [|by rewrite lookup_insert_ne].
    rewrite lookup_insert_eq. rewrite Hs in Hs'. injection Hs' as <-.
    apply andb_false_iff in Hguard as [Hg|Hg]; apply negb_false_iff in Hg;
      apply String.eqb_eq in Hg; congruence.
  - simpl. rewrite lookup_insert_ne; [done|]. intros <-. congruence.
Qed.

Lemma keeps_table_getBulk (d : doc) : keeps_table (getBulkIndexCommandsForDoc apos d).
Proof.
  unfold getBulkIndexCommandsForDoc.
  apply keeps_table_bind; [intros st; apply table_kept_refl|]. intros body.
  destruct (truthy _).
  - apply keeps_table_bind; [|intros; apply keeps_table_ret].
    destruct (doc_get d "workflowLocale");
      first [apply keeps_table_getLocaleIndex | apply keeps_table_throw].
  - apply keeps_table_eachM. intros acc l. unfold push_locale.
    apply keeps_table_bind; [apply keeps_table_getLocaleIndex|].
    intros; apply keeps_table_ret.
Qed.

Lemma keeps_table_indexBatch (reindexed : nat) (docs : list doc) :
  keeps_table (indexBatch apos reindexed docs).
Proof.
  unfold indexBatch. apply keeps_table_bind; [apply keeps_table_emit|]. intros _.
  apply keeps_table_bind; [apply keeps_table_mapM, keeps_table_getBulk|].
  intros bodies. apply keeps_table_call.
Qed.

Lemma keeps_table_nextBatch (fuel : nat) (cur : string) (reindexed : nat) :
  keeps_table (nextBatch apos fuel cur reindexed).
Proof.
  revert cur reindexed. induction fuel as [|fuel IH]; intros cur reindexed.
  - intros st. apply table_kept_refl.
  - rewrite nextBatch_S. apply keeps_table_bind; [apply keeps_table_emit|]. intros _.
    destruct (db_find apos cur); [apply keeps_table_ret|].
    destruct (find_page apos cur (batchSize apos)); [apply keeps_table_ret|].
    apply keeps_table_bind; [apply keeps_table_indexBatch|].
    intros [err|]; [apply keeps_table_ret|apply IH].
Qed.

Lemma keeps_table_stages :
  keeps_table (dropIndexes apos) /\ keeps_table (createIndexes apos) /\
  keeps_table (index apos) /\ keeps_table (refresh apos).
Proof.
  split; [|split; [|split]].
  - unfold dropIndexes, verbose.
    apply keeps_table_bind; [apply keeps_table_emit|]. intros _.
    apply keeps_table_bind; [apply keeps_table_emit|]. intros _.
    destruct (cat_indices apos) as [err|result]; [apply keeps_table_ret|].
    destruct (List.filter _ _); [apply keeps_table_ret|apply keeps_table_call].
  - unfold createIndexes, eachSeries, verbose.
    apply keeps_table_bind; [apply keeps_table_emit|]. intros _.
    apply keeps_table_series, Forall_fmap, Forall_forall. intros locale _.
    unfold createIndex. apply keeps_table_bind; [apply keeps_table_getLocaleIndex|].
    intros name. apply keeps_table_call.
  - unfold index, verbose.
    repeat (apply keeps_table_bind; [apply keeps_table_emit|]; intros _).
    destruct (db_count apos); [apply keeps_table_ret|apply keeps_table_nextBatch].
  - unfold refresh, verbose.
    apply keeps_table_bind; [apply keeps_table_emit|]. intros _.
    apply keeps_table_bind; [apply keeps_table_mapM, keeps_table_getLocaleIndex|].
    intros indexes. apply keeps_table_call.
Qed.

Lemma keeps_table_reindexTask : keeps_table (reindexTask apos).
Proof.
  destruct keeps_table_stages as (Hd & Hc & Hi & Hr).
  unfold reindexTask, verbose.
  apply keeps_table_bind; [apply keeps_table_emit|]. intros _.
  unfold withLock.
  apply keeps_table_bind; [apply keeps_table_emit|]. intros _.
  destruct (lock_acquire apos _); [apply keeps_table_ret|].
  apply keeps_table_bind.
  - apply keeps_table_series. repeat constructor; done.
  - intros r. apply keeps_table_bind; [apply keeps_table_emit|]. intros _.
    apply keeps_table_ret.
Qed.

Lemma keeps_table_docAfterSave (d : doc) (defer : value) :
  keeps_table (docAfterSave apos d defer).
Proof.
  unfold docAfterSave.
  apply keeps_table_bind; [apply keeps_table_getBulk|intros; apply keeps_table_call].
Qed.

(** X2: the table is append-only: an entry that records a locale (one
    that is not the empty string) under an index name is still there,
    unchanged, after any call of the namer, after building the commands of
    any document, after any save and after any reindex, whether these end
    well or not. *)
Theorem table_never_forgets (st : state) :
  (forall l, table_kept st (getLocaleIndex apos l st).2) /\
  (forall d, table_kept st (getBulkIndexCommandsForDoc apos d st).2) /\
  (forall d defer, table_kept st (docAfterSave apos d defer st).2) /\
  table_kept st (reindexTask apos st).2.
Proof.
  split; [|split; [|split]].
  - intros l. apply keeps_table_getLocaleIndex.
  - intros d. apply keeps_table_getBulk.
  - intros d defer. apply keeps_table_docAfterSave.
  - apply keeps_table_reindexTask.
Qed.

Lemma table_ok_getLocaleIndex (l : string) (st : state) :
  table_ok apos st -> table_ok apos (getLocaleIndex apos l st).2.
Proof.
  intros Hok. unfold getLocaleIndex.
  assert (table_ok apos
            (State (<[docIndex apos ++ Str.strip_non_az (Str.toLowerCase l) :=
                        Str.toLowerCase l]> (indexNamesSeen st)) (trace st))) as Hins.
  { intros n s. simpl. rewrite lookup_insert. case_decide as Hn.
    - intros [= <-]. split; [done|apply toLowerCase_idem].
    - apply Hok. }
  destruct (indexNamesSeen st !! _) as [s'|]; [|done].
  by destruct (negb _ && negb _).
Qed.

(** X3: on a table in which every entry holds a lower-cased locale under
    the name derived from it (the empty table is one, and the namer keeps
    tables so), the collision error is never raised for nothing: when a
    call raises, the table is unchanged, and the recorded locale named in
    the message is not empty, differs from the lower-cased argument and
    has the same letters a-z. *)
Theorem collision_error_is_sound (l : string) (st st' : state) (msg : string) :
  table_ok apos st ->
  getLocaleIndex apos l st = (Throw msg, st') ->
  st' = st /\
  (forall l', table_ok apos (getLocaleIndex apos l' st).2) /\
  exists seen,
    indexNamesSeen st !! index_name apos l = Some seen /\
    msg = collision_message (Str.toLowerCase l) seen /\
    seen <> EmptyString /\ seen <> Str.toLowerCase l /\
    Str.strip_non_az seen = Str.strip_non_az (Str.toLowerCase l).
Proof.
  intros Hok H. split; [|split].
  - by apply getLocaleIndex_not_Ret in H as [-> _].
  - intros l'. by apply table_ok_getLocaleIndex.
  - unfold getLocaleIndex in H. fold (index_name apos l) in H.
    destruct (indexNamesSeen st !! index_name apos l) as [seen|] eqn:Hseen; [|done].
    destruct (negb _ && negb _) eqn:Hguard; [|done].
    injection H as <- _. exists seen. split; [done|]. split; [done|].
    apply andb_true_iff in Hguard as [H1 H2].
    apply negb_true_iff in H1, H2. apply String.eqb_neq in H1, H2.
    split; [done|]. split; [done|].
    apply Hok in Hseen as [Hname _]. unfold index_name in Hname.
    by apply (inj (String.append (docIndex apos))) in Hname.
Qed.

End Table.

Lemma collision_error_is_sound_witness :
  exists seen,
    indexNamesSeen (getLocaleIndex Sample.plain "en-gb" Sample.fresh).2
      !! index_name Sample.plain "en_GB" = Some seen /\
    seen <> EmptyString /\ seen <> "en_gb" /\
    Str.strip_non_az seen = "engb".
Proof.
  destruct (collision_error_is_sound Sample.plain "en_GB"
              (getLocaleIndex Sample.plain "en-gb" Sample.fresh).2
              (getLocaleIndex Sample.plain "en-gb" Sample.fresh).2
              (collision_message "en_gb" "en-gb"))
    as (_ & _ & seen & H1 & _ & H2 & H3 & H4).
  - apply table_ok_getLocaleIndex. intros n l Hl. by vm_compute in Hl.
  - by vm_compute.
  - exists seen. by repeat split.
Defined.

(** ** What the projected body holds *)

(** X4: nothing but the configured fields reaches a body: every key of a
    body that the projection returns is a configured field whose value
    passed the test, or the shadow key of one, it is never [_id] or
    [__proto__], and the value under it is the document's value of that
    field, unmodified and not a function. *)
Theorem project_only_configured (apos : host) (d : doc) (body : obj)
    (k : string) (v : value) :
  project apos d = Ret body ->
  Obj.lookup body k = Some v ->
  k <> "_id" /\ k <> "__proto__" /\
  exists f, f ∈ fields apos /\ (k = f \/ k = shadow f) /\
            good (doc_get d f) = true /\ v = doc_get d f /\
            typeof v <> TFunction.
Proof.
  intros Hbody Hk.
  assert (k <> "__proto__") as Hproto.
  { intros ->. by rewrite (project_no_proto apos d body) in Hk. }
  destruct (lookup_project apos d body k Hbody) as (body0 & H0 & Hlookup).
  rewrite Hk in Hlookup.
  destruct (String.eqb_spec "_id" k) as [<-|Hid]; [done|].
  symmetry in Hlookup.
  apply (lookup_each_Some _ _ _ _ _ _ H0) in Hlookup as [H|(f & Hf & Hw)]; [done|].
  split; [done|]. split; [done|]. exists f. split; [done|].
  pose proof (project_not_function apos d body f Hbody Hf) as Hfun.
  unfold writes in Hw. destruct (good (doc_get d f)); [|done].
  destruct (is_small _ && String.eqb (shadow f) k) eqn:Hs.
  - apply andb_true_iff in Hs as [_ Hs%String.eqb_eq]. injection Hw as <-. auto.
  - destruct (String.eqb_spec f k) as [->|]; [|done].
    destruct (negb _); [|done]. injection Hw as <-. auto.
Qed.

Lemma project_only_configured_witness :
  exists f, f ∈ fields Sample.titled /\
            ("titleESExact" = f \/ "titleESExact" = shadow f) /\
            VStr "Hello World" = doc_get Sample.hello f.
Proof.
  destruct (project_only_configured Sample.titled Sample.hello
              [("title", VStr "Hello World"); ("titleESExact", VStr "Hello World")]
              "titleESExact" (VStr "Hello World"))
    as (_ & _ & f & H1 & H2 & _ & H3 & _); [by vm_compute | by vm_compute |].
  by exists f.
Defined.

Lemma elem_of_keys_set (o : obj) (k x : string) (v : value) :
  x ∈ Obj.keys (Obj.set o k v) <-> x = k \/ x ∈ Obj.keys o.
Proof.
  unfold Obj.keys. induction o as [|[k0 v0] o IH]; simpl.
  - rewrite list_elem_of_singleton. split; [by left|]. intros [?|H]; [done|].
    by apply elem_of_nil in H.
  - destruct (String.eqb_spec k0 k) as [->|Hne]; simpl.
    + rewrite elem_of_cons. tauto.
    + rewrite !elem_of_cons, IH. tauto.
Qed.

Lemma NoDup_keys_set (o : obj) (k : string) (v : value) :
  NoDup (Obj.keys o) -> NoDup (Obj.keys (Obj.set o k v)).
Proof.
  induction o as [|[k0 v0] o IH]; simpl.
  - intros _. apply NoDup_singleton.
  - intros [Hk0 Hdup]%NoDup_cons.
    destruct (String.eqb_spec k0 k) as [->|Hne]; simpl.
    + by apply NoDup_cons.
    + apply NoDup_cons. split; [|by apply IH].
      rewrite (elem_of_keys_set o k k0 v). intros [?|?]; done.
Qed.

Lemma NoDup_keys_put (o : obj) (k : string) (v : value) :
  NoDup (Obj.keys o) -> NoDup (Obj.keys (Obj.put o k v)).
Proof.
  unfold Obj.put. destruct (String.eqb k "__proto__"); [done|].
  apply NoDup_keys_set.
Qed.

Lemma keys_delete_sublist (o : obj) (k : string) :
  Obj.keys (Obj.delete o k) `sublist_of` Obj.keys o.
Proof.
  induction o as [|[k0 v0] o IH]; simpl; [done|].
  destruct (String.eqb k0 k); simpl; [by apply sublist_cons|by apply sublist_skip].
Qed.

(** X5: the projected body and the field mapping are well-formed
    objects: no key occurs twice in either, whatever the field set (also
    one that names a field twice) and whatever the document. *)
Theorem body_and_mapping_keys_distinct (apos : host) (d : doc) :
  (forall body, project apos d = Ret body -> NoDup (Obj.keys body)) /\
  NoDup (Obj.keys (mapping apos)).
Proof.
  split.
  - intros body (body0 & H0 & ->)%project_Ret.
    eapply sublist_NoDup; [|apply keys_delete_sublist].
    assert (forall fs acc acc', NoDup (Obj.keys acc) ->
              each (project_field d) fs acc = Ret acc' ->
              NoDup (Obj.keys acc')) as H.
    { induction fs as [|f fs IH]; intros acc acc' Hacc; simpl.
      - by intros [= <-].
      - destruct (project_field d acc f) as [acc1| |] eqn:H1; simpl; [|done..].
        apply IH. revert H1. unfold project_field.
        destruct (good _); [|by intros [= <-]].
        destruct (small _) as [[]| |]; simpl; intros [= <-];
          auto using NoDup_keys_put. }
    apply (H (fields apos) [] body0); [apply NoDup_nil_2|done].
  - unfold mapping.
    assert (forall fs acc, NoDup (Obj.keys acc) ->
              NoDup (Obj.keys (fold_left add_property fs acc))) as H.
    { induction fs as [|f fs IH]; intros acc Hacc; simpl; [done|].
      apply IH. unfold add_property. auto using NoDup_keys_put. }
    apply H. apply NoDup_nil_2.
Qed.

Section Mapping.

Variable apos : host.

Lemma lookup_add_property (properties : obj) (f k : string) :
  Obj.lookup (add_property properties f) k =
  if String.eqb (shadow f) k then Some (VObj [("type", VStr "keyword")])
  else if String.eqb f k && negb (String.eqb f "__proto__")
       then Some (VObj [("type", VStr "text")])
  else Obj.lookup properties k.
Proof.
  unfold add_property.
  by rewrite ObjFacts.put_shadow, ObjFacts.lookup_set, ObjFacts.lookup_put.
Qed.

Lemma lookup_mapping_is_Some (fs : list string) (acc : obj) (k : string) :
  is_Some (Obj.lookup (fold_left add_property fs acc) k) <->
  is_Some (Obj.lookup acc k) \/
  exists f, f ∈ fs /\ (k = f /\ f <> "__proto__" \/ k = shadow f).
Proof.
  revert acc. induction fs as [|f fs IH]; intros acc; simpl.
  - split; [by left|]. intros [H|(f & Hf & _)]; [done|]. by apply elem_of_nil in Hf.
  - rewrite IH, lookup_add_property. split.
    + intros [H|(g & Hg & Hk)].
      * destruct (String.eqb_spec (shadow f) k) as [<-|].
        { right. exists f. split; [by left|by right]. }
        destruct (String.eqb_spec f k) as [<-|]; [|by left].
        destruct (String.eqb_spec f "__proto__") as [->|Hp]; [by left|].
        right. exists f. split; [by left|by left].
      * right. exists g. split; [by right|done].
    + intros [H|(g & Hg & Hk)].
      * left. destruct (String.eqb _ k); [done|]. by destruct (String.eqb f k && _).
      * apply elem_of_cons in Hg as [->|Hg]; [|right; by exists g].
        left. destruct Hk as [[-> Hp]| ->].
        -- destruct (String.eqb (shadow f) f); [done|]. rewrite String.eqb_refl.
           by apply String.eqb_neq in Hp as ->.
        -- by rewrite String.eqb_refl.
Qed.

Lemma lookup_mapping_Some (fs : list string) (acc : obj) (k : string) (v : value) :
  Obj.lookup (fold_left add_property fs acc) k = Some v ->
  Obj.lookup acc k = Some v \/
  exists f, f ∈ fs /\
    (k = f /\ v = VObj [("type", VStr "text")] \/
     k = shadow f /\ v = VObj [("type", VStr "keyword")]).
Proof.
  revert acc. induction fs as [|f fs IH]; intros acc; simpl; [by left|].
  intros [H|(g & Hg & Hk)]%IH; [|right; exists g; split; [by right|done]].
  rewrite lookup_add_property in H.
  destruct (String.eqb_spec (shadow f) k) as [<-|].
  { injection H as <-. right. exists f. split; [by left|by right]. }
  destruct (String.eqb_spec f k) as [<-|]; [|by left].
  destruct (negb _); [|by left].
  injection H as <-. right. exists f. split; [by left|by left].
Qed.

Lemma project_key_configured (d : doc) (body : obj) (k : string) :
  project apos d = Ret body ->
  is_Some (Obj.lookup body k) ->
  exists f, f ∈ fields apos /\ (k = f /\ f <> "__proto__" \/ k = shadow f).
Proof.
  intros Hbody.
  destruct (lookup_project apos d body k Hbody) as (body0 & H0 & ->).
  destruct (String.eqb "_id" k); [by intros [? ?]|].
  intros [H|(f & Hf & Hw)]%(lookup_each_is_Some _ _ _ _ _ H0); [by destruct H|].
  exists f. split; [done|]. unfold writes in Hw.
  destruct (good (doc_get d f)); [|by destruct Hw].
  destruct (is_small _ && String.eqb (shadow f) k) eqn:Hs.
  - apply andb_true_iff in Hs as [_ Hs%String.eqb_eq]. by right.
  - destruct (String.eqb_spec f k) as [->|]; [|by destruct Hw].
    destruct (String.eqb_spec k "__proto__"); [by destruct Hw|by left].
Qed.

(** X6: every key that a projected body can have is mapped in the
    indexes that [createIndexes] makes; and in a field set without name
    clashes every configured field other than [__proto__] is mapped as
    [text] and the shadow key of every configured field as [keyword].
    The mapping has no key [__proto__]. *)
Theorem mapping_covers_bodies :
  (forall (d : doc) (body : obj) (k : string),
      project apos d = Ret body ->
      is_Some (Obj.lookup body k) ->
      is_Some (Obj.lookup (mapping apos) k)) /\
  (shadow_free (fields apos) ->
   forall f, f ∈ fields apos ->
     (f <> "__proto__" ->
      Obj.lookup (mapping apos) f = Some (VObj [("type", VStr "text")])) /\
     Obj.lookup (mapping apos) (shadow f) = Some (VObj [("type", VStr "keyword")])) /\
  Obj.lookup (mapping apos) "__proto__" = None.
Proof.
  split; [|split].
  - intros d body k Hbody (f & Hf & Hk)%(project_key_configured d body k Hbody).
    apply lookup_mapping_is_Some. right. by exists f.
  - intros Hfree f Hf. split.
    + intros Hp.
      assert (is_Some (Obj.lookup (mapping apos) f)) as [v Hv].
      { apply lookup_mapping_is_Some. right. exists f. auto. }
      rewrite Hv. apply lookup_mapping_Some in Hv as [Hv|(g & Hg & [[_ ->]|[-> _]])];
        [done|done|].
      by destruct (shadow_free_elim _ g (shadow g) Hfree Hg Hf).
    + assert (is_Some (Obj.lookup (mapping apos) (shadow f))) as [v Hv].
      { apply lookup_mapping_is_Some. right. exists f. auto. }
      rewrite Hv. apply lookup_mapping_Some in Hv as [Hv|(g & Hg & [[Heq _]|[_ ->]])];
        [done| |done].
      subst g. by destruct (shadow_free_elim _ f (shadow f) Hfree Hf Hg).
  - destruct (Obj.lookup (mapping apos) "__proto__") as [v|] eqn:Hv; [|done].
    assert (is_Some (Obj.lookup (mapping apos) "__proto__")) as Hs by by eexists.
    apply lookup_mapping_is_Some in Hs as [[? ?]|(f & _ & [[Heq Hp]|Hp])];
      [done|congruence|].
    symmetry in Hp. by destruct (shadow_ne_proto f).
Qed.

End Mapping.

Lemma mapping_covers_bodies_witness :
  Obj.lookup (mapping Sample.titled) "title" = Some (VObj [("type", VStr "text")]) /\
  Obj.lookup (mapping Sample.titled) "titleESExact"
    = Some (VObj [("type", VStr "keyword")]).
Proof.
  destruct (mapping_covers_bodies Sample.titled) as (_ & H & _).
  destruct (H ltac:(by_compute) "title" ltac:(by_compute)) as [H1 H2].
  split; [by apply H1|exact H2].
Defined.

(** ** The size test on strings *)

Lemma escape_char_length (c : ascii) : 1 <= String.length (JSON.escape_char c).
Proof. destruct c as [[] [] [] [] [] [] [] []]; vm_compute; lia. Qed.

Lemma escape_char_plain (c : ascii) :
  plain_char c = true -> JSON.escape_char c = String c EmptyString.
Proof.
  destruct c as [[] [] [] [] [] [] [] []]; intros H;
    first [discriminate H | reflexivity].
Qed.

Lemma escape_length (s : string) : String.length s <= String.length (JSON.escape s).
Proof.
  induction s as [|c s IH]; simpl; [done|].
  rewrite length_append. pose proof (escape_char_length c). lia.
Qed.

Lemma escape_plain (s : string) : Str.all plain_char s = true -> JSON.escape s = s.
Proof.
  induction s as [|c s IH]; simpl; [done|].
  intros [Hc Hs]%andb_true_iff. by rewrite escape_char_plain, IH.
Qed.

Lemma quote_length (s : string) :
  String.length (JSON.quote s) = String.length (JSON.escape s) + 2.
Proof. unfold JSON.quote. simpl. rewrite length_append. simpl. lia. Qed.

(** X7: the size test in terms of strings: in a field set without name
    clashes, in every body that the projection returns, a string value of
    4094 code units or more has no shadow key, and a string value shorter
    than that and free of characters that JSON escapes has one, holding
    the same string. *)
Theorem shadow_of_strings (apos : host) (d : doc) (body : obj) (f s : string) :
  project apos d = Ret body ->
  shadow_free (fields apos) -> f ∈ fields apos -> doc_get d f = VStr s ->
  (4094 <= String.length s -> Obj.lookup body (shadow f) = None) /\
  (Str.all plain_char s = true -> String.length s < 4094 ->
   Obj.lookup body (shadow f) = Some (VStr s)).
Proof.
  intros Hbody Hfree Hf Hs.
  rewrite (project_shadow_key apos d) by (done || by rewrite Hs). rewrite Hs.
  unfold is_small, small.
  change (JSON.stringify (VStr s)) with (Some (JSON.quote s)).
  cbv iota beta. rewrite quote_length. split.
  - intros Hlen. pose proof (escape_length s).
    destruct s as [|c s]; [simpl in Hlen; lia|]. simpl truthy. cbv iota beta.
    simpl negb. cbv iota.
    by destruct (Nat.ltb_spec (String.length (JSON.escape (String c s)) + 2) 4096); [lia|].
  - intros Hplain Hlen. rewrite escape_plain by done.
    destruct (negb (truthy (VStr s))); [done|].
    by destruct (Nat.ltb_spec (String.length s + 2) 4096); [|lia].
Qed.

Lemma shadow_of_strings_witness :
  Obj.lookup [("title", VStr "Hello World"); ("titleESExact", VStr "Hello World")]
             (shadow "title")
    = Some (VStr "Hello World").
Proof.
  destruct (shadow_of_strings Sample.titled Sample.hello
              [("title", VStr "Hello World"); ("titleESExact", VStr "Hello World")]
              "title" "Hello World")
    as [_ H]; [by vm_compute | by_compute | by_compute | done |].
  apply H; [done | simpl; lia].
Defined.

(** ** Dropping, creating and refreshing indexes *)

Lemma split_lines_line (s t : string) :
  no_newline s = true ->
  Str.split_lines (s ++ newline ++ t) = s :: Str.split_lines t.
Proof.
  induction s as [|c s IH]; [done|].
  unfold no_newline. simpl. intros [Hc Hs]%andb_true_iff.
  apply negb_true_iff in Hc. rewrite Hc. by rewrite IH.
Qed.

Lemma split_lines_last (s : string) :
  no_newline s = true -> Str.split_lines s = [s].
Proof.
  induction s as [|c s IH]; [done|].
  unfold no_newline. simpl. intros [Hc Hs]%andb_true_iff.
  apply negb_true_iff in Hc. rewrite Hc. by rewrite IH.
Qed.

(** A catalog with one name per line is read back as the list of names. *)
Lemma split_lines_join (names : list string) :
  names <> [] -> Forall (fun n => no_newline n = true) names ->
  Str.split_lines (Str.join newline names) = names.
Proof.
  intros Hne Hnames. induction Hnames as [|n names Hn Hnames IH]; [done|].
  destruct names as [|n' names]; simpl.
  - by apply split_lines_last.
  - rewrite split_lines_line by done. f_equal. by apply IH.
Qed.

Lemma substr0_prefix (p s : string) :
  String.eqb (Str.substr0 (String.length p) s) p = String.prefix p s.
Proof.
  destruct (String.prefix p s) eqn:Hp.
  - apply String.eqb_eq. by apply prefix_correct.
  - apply String.eqb_neq. intros H. apply prefix_correct in H. congruence.
Qed.

Lemma prefix_starts_with (p s : string) :
  String.prefix p s = true <-> starts_with p s.
Proof.
  unfold starts_with. revert s. induction p as [|c p IH]; intros s.
  - split; [intros _; by exists s|]. by destruct s.
  - destruct s as [|c' s]; simpl.
    + split; [done|]. by intros [t Ht].
    + destruct (ascii_dec c c') as [->|Hc].
      * rewrite IH. split; intros [t Ht]; exists t.
        -- by rewrite append_cons, Ht.
        -- rewrite append_cons in Ht. by injection Ht.
      * split; [done|]. intros [t Ht]. rewrite append_cons in Ht. congruence.
Qed.

Section Lifecycle.

Variable apos : host.

Lemma docIndex_not_empty : docIndex apos <> EmptyString.
Proof.
  unfold docIndex. intros H. apply (f_equal String.length) in H.
  rewrite length_append in H. simpl in H. lia.
Qed.

(** The names of a catalog that [dropIndexes] takes for its own. *)
Lemma dropIndexes_filter (lines : list string) :
  List.filter
    (fun index =>
       String.eqb (Str.substr0 (String.length (docIndex apos)) index) (docIndex apos))
    lines
  = List.filter (String.prefix (docIndex apos)) lines.
Proof.
  induction lines as [|n lines IH]; simpl; [done|].
  by rewrite substr0_prefix, IH.
Qed.

(** X8: [dropIndexes] never deletes an index of somebody else: whatever
    the catalog answers, it makes at most one delete call, never for an
    empty list, and every name in that call starts with the module's
    [docIndex]. *)
Theorem dropIndexes_only_own (st : state) :
  exists evs,
    trace (dropIndexes apos st).2 = (trace st ++ evs)%list /\
    length (deletes evs) <= 1 /\
    Forall (fun l => l <> [] /\ Forall (starts_with (docIndex apos)) l) (deletes evs).
Proof.
  unfold dropIndexes, verbose, call, bind, emit. simpl.
  destruct (cat_indices apos) as [err|result]; simpl.
  - exists [EvVerbose "dropping indexes"; EvCatIndices].
    rewrite <- app_assoc. split; [done|]. split; [simpl; lia|constructor].
  - rewrite dropIndexes_filter.
    destruct (List.filter _ _) as [|n own] eqn:Hown; simpl.
    + exists [EvVerbose "dropping indexes"; EvCatIndices].
      rewrite <- app_assoc. split; [done|]. split; [simpl; lia|constructor].
    + exists [EvVerbose "dropping indexes"; EvCatIndices; EvDelete (n :: own)].
      rewrite <- !app_assoc. split; [done|]. split; [simpl; lia|].
      apply Forall_singleton. split; [done|]. rewrite <- Hown. apply Forall_forall.
      intros x Hx. apply list_elem_of_In, filter_In in Hx as [_ Hx].
      by apply prefix_starts_with.
Qed.

(** X9: what [dropIndexes] does with a catalog of one name per line: it
    deletes, in one call and in the order of the catalog, exactly the
    names that start with [docIndex], and its result is the answer of that
    call; when no name does, it makes no delete call and ends well; when
    the catalog call fails, it makes no delete call and returns that
    error. *)
Theorem dropIndexes_on_catalog (st : state) :
  (forall names : list string,
      cat_indices apos = inr (Some (Str.join newline names)) ->
      Forall (fun n => no_newline n = true) names ->
      dropIndexes apos st =
        match List.filter (String.prefix (docIndex apos)) names with
        | [] =>
            (Ret None,
             State (indexNamesSeen st)
               (trace st ++ [EvVerbose "dropping indexes"; EvCatIndices]))
        | own =>
            (Ret (indices_delete apos own),
             State (indexNamesSeen st)
               (trace st ++ [EvVerbose "dropping indexes"; EvCatIndices; EvDelete own]))
        end) /\
  (forall err : error,
      cat_indices apos = inl err ->
      dropIndexes apos st =
        (Ret (Some err),
         State (indexNamesSeen st)
           (trace st ++ [EvVerbose "dropping indexes"; EvCatIndices]))).
Proof.
  split.
  - intros names Hcat Hnames.
    unfold dropIndexes, verbose, call, bind, emit. simpl. rewrite Hcat.
    rewrite dropIndexes_filter.
    assert (List.filter (String.prefix (docIndex apos))
              (Str.split_lines (Str.join newline names))
            = List.filter (String.prefix (docIndex apos)) names) as ->.
    { destruct names as [|n names]; [|by rewrite split_lines_join].
      simpl. pose proof docIndex_not_empty as Hd. by destruct (docIndex apos). }
    destruct (List.filter _ names); simpl; by rewrite <- !app_assoc.
  - intros err Hcat. unfold dropIndexes, verbose, call, bind, emit. simpl.
    rewrite Hcat. simpl. by rewrite <- !app_assoc.
Qed.

Lemma creates_create_events (ls : list string) :
  creates (create_events apos ls) = map (index_name apos) ls.
Proof. induction ls as [|l ls IH]; simpl; [done|]. unfold creates in *. simpl. by rewrite IH. Qed.

Lemma createIndex_series (ls : list string) (st st' : state)
    (out : outcome (option error)) :
  series (map (createIndex apos) ls) st = (out, st') ->
  exists k,
    k <= length ls /\
    trace st' = (trace st ++ create_events apos (take k ls))%list /\
    Forall (fun l => indices_create apos (index_name apos l) = None) (take (pred k) ls) /\
    (out = Ret None ->
     k = length ls /\
     Forall (fun l => indices_create apos (index_name apos l) = None) ls) /\
    (forall err, out = Ret (Some err) ->
       exists l, ls !! pred k = Some l /\ 0 < k /\
                 indices_create apos (index_name apos l) = Some err).
Proof.
  revert st. induction ls as [|l ls IH]; intros st; simpl.
  - intros [= <- <-]. exists 0. rewrite app_nil_r. repeat split; try done.
  - unfold bind at 1, createIndex at 1, bind at 1.
    destruct (getLocaleIndex apos l st) as [[name| |] st1] eqn:Hname.
    + apply getLocaleIndex_Ret in Hname as (-> & _ & Htr).
      unfold call, bind, emit. simpl.
      destruct (indices_create apos (index_name apos l)) as [err|] eqn:Hcreate.
      * intros [= <- <-]. exists 1. simpl. rewrite Htr.
        repeat split; try done; [lia|]. intros err' [= <-]. exists l. by repeat split; try lia.
      * intros (k & Hk & Htr' & Hall & Hok & Herr)%IH. exists (S k). simpl in *.
        rewrite Htr', Htr, <- app_assoc. repeat split; try done; try lia.
        -- destruct k as [|k]; simpl; [done|]. by constructor.
        -- by destruct (Hok H) as [-> _].
        -- destruct (Hok H) as [_ ?]. by constructor.
        -- intros err Hout. destruct (Herr err Hout) as (l' & Hl' & Hpos & Hfail).
           exists l'. repeat split; try done; [|lia].
           destruct k as [|k]; [lia|done].
    + intros [= <- <-]. exists 0. simpl.
      apply getLocaleIndex_not_Ret in Hname as [-> _]; [|done].
      rewrite app_nil_r. repeat split; try done; lia.
    + by pose proof (terminates_getLocaleIndex apos l st) as Hterm; rewrite Hname in Hterm.
Qed.

(** X10: [createIndexes] creates the indexes of the locales of
    [getLocales] one after the other, in that order, each with the settings
    of its locale and the one field mapping, and stops at the first create
    call that fails (or at a locale the namer refuses): no index is created
    after a failure, the error returned is the answer of the last create
    call, and a run that ends well has created the index of every
    locale. *)
Theorem createIndexes_fail_fast (st st' : state) (out : outcome (option error)) :
  createIndexes apos st = (out, st') ->
  exists k,
    k <= length (getLocales apos) /\
    trace st' =
      (trace st ++ EvVerbose "creating indexes"
         :: map (fun l => EvCreate (index_name apos l) (getLocaleSettings apos l)
                            (mapping apos))
                (take k (getLocales apos)))%list /\
    Forall (fun l => indices_create apos (index_name apos l) = None)
           (take (pred k) (getLocales apos)) /\
    (out = Ret None ->
     k = length (getLocales apos) /\
     Forall (fun l => indices_create apos (index_name apos l) = None) (getLocales apos)) /\
    (forall err, out = Ret (Some err) ->
       exists l, getLocales apos !! pred k = Some l /\ 0 < k /\
                 indices_create apos (index_name apos l) = Some err).
Proof.
  unfold createIndexes, eachSeries, verbose, bind at 1, emit. simpl.
  intros (k & Hk & Htr & H)%createIndex_series. exists k. unfold create_events in Htr.
  split; [done|]. split; [|done]. simpl in Htr. by rewrite Htr, <- app_assoc.
Qed.

(** X11: a refresh that returns has made one refresh call, for the
    indexes of the locales of [getLocales] in their order, and returns the
    answer of that call; these are exactly the indexes that a
    [createIndexes] that ended well has created. *)
Theorem refresh_targets_created (st st1 st2 st3 : state) (r : option error) :
  createIndexes apos st = (Ret None, st1) ->
  refresh apos st2 = (Ret r, st3) ->
  exists evs,
    trace st1 = (trace st ++ evs)%list /\
    creates evs = map (index_name apos) (getLocales apos) /\
    trace st3 = (trace st2 ++ [EvVerbose "refreshing"; EvRefresh (creates evs)])%list /\
    r = indices_refresh apos (creates evs).
Proof.
  unfold createIndexes, eachSeries, verbose, bind at 1, emit. simpl.
  intros (k & _ & Htr & _ & Hok & _)%createIndex_series Hrefresh.
  destruct (Hok eq_refl) as [-> _]. rewrite firstn_all in Htr.
  simpl in Htr. rewrite <- app_assoc in Htr.
  exists (EvVerbose "creating indexes" :: create_events apos (getLocales apos)).
  split; [done|].
  assert (creates (EvVerbose "creating indexes" :: create_events apos (getLocales apos))
          = map (index_name apos) (getLocales apos)) as ->
    by apply creates_create_events.
  split; [done|].
  unfold refresh, verbose, bind at 1, emit in Hrefresh. simpl in Hrefresh.
  unfold bind at 1 in Hrefresh.
  destruct (mapM _ _ _) as [[names| |] st4] eqn:Hnames; [|done..].
  apply mapM_getLocaleIndex_Ret in Hnames as [-> Htr4].
  unfold call, bind, emit in Hrefresh. simpl in Hrefresh.
  injection Hrefresh as <- <-. simpl. rewrite Htr4. simpl.
  by rewrite <- app_assoc.
Qed.

End Lifecycle.

Lemma dropIndexes_on_catalog_witness :
  dropIndexes Demo.cataloged Sample.fresh =
    (Ret None,
     State (indexNamesSeen Sample.fresh)
       (trace Sample.fresh ++
        [EvVerbose "dropping indexes"; EvCatIndices;
         EvDelete ["siteaposdocsen"; "siteaposdocsfr"]])).
Proof.
  destruct (dropIndexes_on_catalog Demo.cataloged Sample.fresh) as [H _].
  apply (H ["siteaposdocsen"; "other"; "siteaposdocsfr"]); [done|].
  by_compute.
Defined.

Lemma createIndexes_fail_fast_witness :
  exists k,
    k <= 1 /\
    (exists l, getLocales Sample.refusing !! pred k = Some l /\ 0 < k /\
               indices_create Sample.refusing (index_name Sample.refusing l)
                 = Some "boom").
Proof.
  destruct (createIndexes_fail_fast Sample.refusing Sample.fresh
              (createIndexes Sample.refusing Sample.fresh).2 (Ret (Some "boom")))
    as (k & Hk & _ & _ & _ & H); [by vm_compute|].
  exists k. split; [exact Hk|]. by apply H.
Defined.

Lemma refresh_targets_created_witness :
  exists evs,
    creates evs = ["siteaposdocsen"; "siteaposdocsfr"] /\
    trace (refresh Sample.bilingual Sample.fresh).2 =
      (trace Sample.fresh ++ [EvVerbose "refreshing"; EvRefresh (creates evs)])%list.
Proof.
  destruct (refresh_targets_created Sample.bilingual Sample.fresh
              (createIndexes Sample.bilingual Sample.fresh).2
              Sample.fresh
              (refresh Sample.bilingual Sample.fresh).2 None)
    as (evs & _ & H1 & H2 & _); [by vm_compute..|].
  exists evs. by split.
Defined.

(** ** What the index stage fetches and writes *)

Section IndexStage.

Variable apos : host.

Lemma find_page_StronglySorted (cur : string) (n : nat) :
  StronglySorted id_le (find_page apos cur n).
Proof.
  rewrite find_page_sorted.
  apply (StronglySorted_app_1_l id_le _
           (drop n (merge_sort id_le (remaining apos cur)))).
  rewrite take_drop. apply StronglySorted_merge_sort; apply _.
Qed.

(** The documents of a page are not above its last one. *)
Lemma page_below_last (cur : string) (n : nat) (dl : doc) :
  last (find_page apos cur n) = Some dl ->
  forall d, d ∈ find_page apos cur n -> id_le d dl.
Proof.
  intros [init Hinit]%last_Some d Hd.
  pose proof (find_page_StronglySorted cur n) as Hsorted.
  rewrite Hinit in Hd, Hsorted.
  apply elem_of_app in Hd as [Hd|Hd%list_elem_of_singleton].
  - eapply (StronglySorted_app_1_elem_of id_le); [done..|].
    by apply list_elem_of_singleton.
  - subst d. unfold id_le. done.
Qed.

(** With distinct identifiers the documents above a cursor are the page
    and the documents above the last identifier of the page. *)
Lemma remaining_split (cur : string) (n : nat) (dl : doc) :
  NoDup (map doc_id (store apos)) ->
  last (find_page apos cur n) = Some dl ->
  remaining apos cur ≡ₚ find_page apos cur n ++ remaining apos (doc_id dl).
Proof.
  intros Hdup Hdl.
  pose proof (last_Some_elem_of _ _ Hdl) as [_ Hgt]%elem_of_find_page.
  pose proof (page_below_last cur n dl Hdl) as Hbelow.
  set (sorted := merge_sort id_le (remaining apos cur)).
  assert (StronglySorted id_le sorted) as Hsorted
    by (apply StronglySorted_merge_sort; apply _).
  assert (sorted ≡ₚ remaining apos cur) as Hperm by apply merge_sort_Permutation.
  assert (NoDup (map doc_id sorted)) as Hdup'.
  { rewrite Hperm. eapply sublist_NoDup; [done|].
    apply (fmap_sublist doc_id). apply sublist_filter. }
  rewrite find_page_sorted in *. fold sorted in Hdl, Hbelow |- *.
  assert (remaining apos (doc_id dl) ≡ₚ drop n sorted) as ->.
  { unfold remaining at 1.
    rewrite <- (list_filter_filter_l _ (id_gt cur))
      by (intros d; apply id_gt_mono; by apply id_gt_le).
    fold (remaining apos cur). rewrite <- Hperm.
    rewrite <- (take_drop n sorted) at 1. rewrite filter_app.
    rewrite <- (take_drop n sorted) in Hsorted, Hdup'.
    rewrite (filter_none _ (take n sorted)).
    - rewrite (filter_all _ (drop n sorted)); [done|].
      apply Forall_forall. intros d Hd Hle.
      assert (dl ∈ take n sorted) as Hin by by apply last_Some_elem_of.
      assert (id_le dl d) as Hle'
        by by eapply (StronglySorted_app_1_elem_of id_le).
      assert (doc_id d = doc_id dl) as Heq by by apply (anti_symm String.le).
      rewrite map_app in Hdup'. apply NoDup_app in Hdup' as (_ & Hdisj & _).
      apply (Hdisj (doc_id dl)).
      + apply list_elem_of_fmap. by exists dl.
      + apply list_elem_of_fmap. by exists d.
    - apply Forall_forall. intros d Hd Hgt'. apply Hgt'. by apply Hbelow. }
  by rewrite take_drop.
Qed.

(** The pages of a batch loop that ends well. *)
Lemma nextBatch_pages (fuel : nat) (cur : string) (reindexed : nat) (st st' : state) :
  NoDup (map doc_id (store apos)) ->
  nextBatch apos fuel cur reindexed st = (Ret None, st') ->
  exists evs,
    trace st' = (trace st ++ evs)%list /\
    concat (pages apos (finds evs)) ≡ₚ remaining apos cur /\
    StronglySorted id_le (concat (pages apos (finds evs))) /\
    Forall (id_gt cur) (concat (pages apos (finds evs))).
Proof.
  intros Hdup. revert cur reindexed st.
  induction fuel as [|fuel IH]; intros cur reindexed st H; [done|].
  rewrite nextBatch_S in H. unfold bind at 1 in H. simpl in H.
  destruct (db_find apos cur) as [err|]; [done|].
  pose proof (find_page_length apos cur (batchSize apos)) as Hlen.
  pose proof (batchSize_pos apos) as Hpos.
  destruct (find_page apos cur (batchSize apos)) as [|d page] eqn:Hpage.
  - injection H as <-. exists [EvFind cur (batchSize apos)].
    split; [done|]. simpl. rewrite Hpage. simpl.
    assert (remaining apos cur = []) as ->
      by (apply length_zero_iff_nil; simpl in Hlen; lia).
    repeat split; constructor.
  - unfold bind in H.
    pose proof (emits_indexBatch apos (reindexed + length (d :: page)) (d :: page)
                  (State (indexNamesSeen st)
                     (trace st ++ [EvFind cur (batchSize apos)])))
      as (evs_b & Htr_b & Hevs_b).
    destruct (indexBatch _ _ _ _) as [[[err|]| |] st2]; try done.
    apply IH in H as (evs & Htr & Hperm & Hsorted & Hgt).
    destruct (last_id_cons d page) as (dl & Hdl & Hid).
    rewrite <- Hpage in Hdl.
    pose proof (remaining_split _ _ _ Hdup Hdl) as Hsplit.
    pose proof (page_below_last _ _ _ Hdl) as Hbelow.
    pose proof (last_Some_elem_of _ _ Hdl) as [_ Hdl_gt]%elem_of_find_page.
    rewrite Hpage in Hsplit, Hbelow. rewrite Hid in *.
    exists ([EvFind cur (batchSize apos)] ++ evs_b ++ evs)%list.
    simpl in Htr_b. rewrite Htr, Htr_b, <- !app_assoc. split; [done|].
    rewrite !finds_app, (finds_batch evs_b) by done.
    change (concat (pages apos (finds [EvFind cur (batchSize apos)] ++ [] ++ finds evs)))
      with (find_page apos cur (batchSize apos)
              ++ concat (pages apos (finds evs)))%list.
    rewrite Hpage. split; [|split].
    + by rewrite Hperm, Hsplit.
    + apply StronglySorted_app_2; [|by rewrite <- Hpage; apply find_page_StronglySorted|done].
      intros x1 x2 Hx1 Hx2. rewrite Forall_forall in Hgt.
      apply Hbelow in Hx1. apply Hgt, id_gt_le in Hx2.
      unfold id_le in *. by etrans.
    + apply Forall_app. split.
      * apply Forall_forall. intros x Hx. rewrite <- Hpage in Hx.
        by apply elem_of_find_page in Hx as [_ ?].
      * eapply Forall_impl; [done|]. intros x. apply id_gt_mono. by apply id_gt_le.
Qed.

(** X12: on a store with distinct identifiers, none of them empty, an
    index stage that ends well has fetched every document exactly once, in
    ascending order of the identifiers: its pages, put end to end, are a
    rearrangement of the store that is sorted. *)
Theorem index_fetches_every_document (st st' : state) :
  NoDup (map doc_id (store apos)) ->
  Forall (fun d => doc_id d <> EmptyString) (store apos) ->
  index apos st = (Ret None, st') ->
  exists evs,
    trace st' = (trace st ++ evs)%list /\
    concat (pages apos (finds evs)) ≡ₚ store apos /\
    StronglySorted id_le (concat (pages apos (finds evs))).
Proof.
  intros Hdup Hids H. unfold index, verbose, bind, emit in H.
  cbn -[nextBatch] in H. destruct (db_count apos); [done|].
  apply nextBatch_pages in H as (evs & Htr & Hperm & Hsorted & _); [|done].
  simpl in Htr. rewrite remaining_all in Hperm by done.
  exists ([EvVerbose "Indexing all documents";
           EvVerbose "Counting docs for progress display"; EvCount] ++ evs)%list.
  rewrite Htr, <- !app_assoc. split; [done|]. rewrite finds_app. by simpl.
Qed.

(** *** The bulk writes *)

Lemma appends_ret {A} (P : event -> Prop) (a : A) : appends P (ret a).
Proof. intros st. exists []. by rewrite app_nil_r. Qed.

Lemma appends_bind {A B} (P : event -> Prop) (c : M A) (k : A -> M B) :
  appends P c -> (forall a, appends P (k a)) -> appends P (bind c k).
Proof.
  intros Hc Hk st. unfold bind. destruct (Hc st) as (evs & Htr & Hevs).
  destruct (c st) as [[a| |] st1]; simpl in *; [|by exists evs..].
  destruct (Hk a st1) as (evs' & Htr' & Hevs').
  exists (evs ++ evs')%list. rewrite Htr', Htr, <- app_assoc.
  split; [done|]. by apply Forall_app.
Qed.

Lemma appends_emit (P : event -> Prop) (e : event) : P e -> appends P (emit e).
Proof. intros He st. exists [e]. split; [done|]. by apply Forall_singleton. Qed.

Lemma appends_mono {A} (P Q : event -> Prop) (c : M A) :
  (forall e, P e -> Q e) -> appends P c -> appends Q c.
Proof.
  intros HPQ Hc st. destruct (Hc st) as (evs & Htr & Hevs).
  exists evs. split; [done|]. eapply Forall_impl; [done|]. apply HPQ.
Qed.

Lemma command_of_mono (docs docs' : list doc) (c : command) :
  docs ⊆ docs' -> command_of apos docs c -> command_of apos docs' c.
Proof. intros Hsub (d & Hd & Hc). exists d. split; [by apply Hsub|done]. Qed.

(** The commands built for the documents [docs]. *)
Lemma mapM_getBulk_Ret (docs : list doc) (bodies : list (list command))
    (st st' : state) :
  mapM (getBulkIndexCommandsForDoc apos) docs st = (Ret bodies, st') ->
  trace st' = trace st /\
  Forall2 (fun d cmds =>
             exists body names,
               project apos d = Ret body /\
               cmds = flat_map (bulk_command d body) names)
          docs bodies.
Proof.
  revert bodies st. induction docs as [|d docs IH]; intros bodies st; simpl.
  - intros [= <- <-]. split; [done|constructor].
  - unfold bind at 1.
    destruct (getBulkIndexCommandsForDoc apos d st) as [[cmds| |] st1] eqn:Hd; [|done..].
    apply getBulk_Ret in Hd as [Htr Hcmds]. unfold bind at 1.
    destruct (mapM _ docs st1) as [[bodies'| |] st2] eqn:Hrest; [|done..].
    intros [= <- <-]. apply IH in Hrest as [Htr' Hall].
    split; [congruence|by constructor].
Qed.

Lemma commands_of_bodies (docs : list doc) (bodies : list (list command)) :
  Forall2 (fun d cmds =>
             exists body names,
               project apos d = Ret body /\
               cmds = flat_map (bulk_command d body) names)
          docs bodies ->
  Forall (command_of apos docs) (concat bodies).
Proof.
  induction 1 as [|d cmds docs bodies (body & names & Hbody & ->) _ IH]; simpl;
    [constructor|].
  apply Forall_app. split.
  - apply Forall_forall. intros c Hc. exists d. split; [by left|].
    apply elem_of_bulk_commands in Hc as [->|Hc]; [left; by exists body|by right].
  - eapply Forall_impl; [done|]. intros c. apply command_of_mono.
    intros x Hx. by right.
Qed.

Lemma emits_nothing {A} (c : M A) (st : state) :
  emits (fun _ => false) c -> trace (c st).2 = trace st.
Proof.
  intros H. destruct (H st) as (evs & Htr & Hevs).
  destruct evs as [|e evs]; [by rewrite app_nil_r in Htr|].
  by apply Forall_cons in Hevs as [[] _].
Qed.

Lemma mapM_getBulk_silent (docs : list doc) (st : state) :
  trace (mapM (getBulkIndexCommandsForDoc apos) docs st).2 = trace st.
Proof. apply emits_nothing, emits_mapM. intros d. apply emits_getBulk. Qed.

(** What one page does: a progress report, the commands, one write. *)
Lemma indexBatch_run (reindexed : nat) (docs : list doc) (st : state) :
  match mapM (getBulkIndexCommandsForDoc apos) docs
          (State (indexNamesSeen st)
                 (trace st ++ [EvProgress reindexed (length (store apos))])) with
  | (Ret bodies, st1) =>
      indexBatch apos reindexed docs st =
        (Ret (client_bulk apos (BulkArgs (concat bodies) None)),
         State (indexNamesSeen st1)
               (trace st ++ [EvProgress reindexed (length (store apos));
                             EvBulk (BulkArgs (concat bodies) None)]))
  | (Throw msg, st1) =>
      indexBatch apos reindexed docs st = (Throw msg, st1) /\
      trace st1 = (trace st ++ [EvProgress reindexed (length (store apos))])%list
  | (OutOfFuel, _) => False
  end.
Proof.
  unfold indexBatch, call, bind, emit. simpl.
  set (st0 := State (indexNamesSeen st)
                (trace st ++ [EvProgress reindexed (length (store apos))])).
  pose proof (mapM_getBulk_silent docs st0) as Htr.
  pose proof (terminates_mapM (getBulkIndexCommandsForDoc apos) docs
                (terminates_getBulk apos) st0) as Hterm.
  destruct (mapM _ docs st0) as [[bodies| |] st1]; subst st0; simpl in *; [| |done].
  - rewrite Htr. by rewrite <- app_assoc.
  - by split.
Qed.

(** X13: a page is written whole or not at all: when building the
    commands of any document of the page raises, no bulk call is made for
    the page; otherwise exactly one bulk call is made, without a refresh
    flag and with the commands of the documents of the page in page
    order, and its answer is the result of [indexBatch]. *)
Theorem indexBatch_all_or_nothing (reindexed : nat) (docs : list doc)
    (st st' : state) (out : outcome (option error)) :
  indexBatch apos reindexed docs st = (out, st') ->
  out <> OutOfFuel /\
  (forall msg, out = Throw msg ->
     trace st' = (trace st ++ [EvProgress reindexed (length (store apos))])%list) /\
  (forall r, out = Ret r ->
     exists bodies,
       Forall2 (fun d cmds =>
                  exists body names,
                    project apos d = Ret body /\
                    cmds = flat_map (bulk_command d body) names)
               docs bodies /\
       trace st' = (trace st ++ [EvProgress reindexed (length (store apos));
                                 EvBulk (BulkArgs (concat bodies) None)])%list /\
       r = client_bulk apos (BulkArgs (concat bodies) None)).
Proof.
  intros H. pose proof (indexBatch_run reindexed docs st) as Hrun.
  destruct (mapM _ docs _) as [[bodies| |] st1] eqn:Hbodies; [| |done].
  - rewrite Hrun in H. injection H as <- <-.
    apply mapM_getBulk_Ret in Hbodies as [_ Hall].
    split; [done|]. split; [done|]. intros r [= <-]. by exists bodies.
  - destruct Hrun as [Hrun Htr]. rewrite Hrun in H. injection H as <- <-.
    split; [done|]. split; [|done]. by intros msg' _.
Qed.

Lemma appends_indexBatch (reindexed : nat) (docs : list doc) :
  appends (writes_only apos docs) (indexBatch apos reindexed docs).
Proof.
  intros st. pose proof (indexBatch_run reindexed docs st) as Hrun.
  destruct (mapM _ docs _) as [[bodies| |] st1] eqn:Hbodies; [| |done].
  - rewrite Hrun. simpl.
    exists [EvProgress reindexed (length (store apos));
            EvBulk (BulkArgs (concat bodies) None)].
    split; [done|]. repeat constructor. simpl.
    apply mapM_getBulk_Ret in Hbodies as [_ Hall]. by apply commands_of_bodies.
  - destruct Hrun as [-> Htr]. simpl.
    exists [EvProgress reindexed (length (store apos))]. by repeat constructor.
Qed.

Lemma appends_nextBatch (fuel : nat) (cur : string) (reindexed : nat) :
  appends (writes_only apos (store apos)) (nextBatch apos fuel cur reindexed).
Proof.
  revert cur reindexed. induction fuel as [|fuel IH]; intros cur reindexed.
  - intros st. exists []. by rewrite app_nil_r.
  - rewrite nextBatch_S. apply appends_bind; [by apply appends_emit|]. intros _.
    destruct (db_find apos cur); [apply appends_ret|].
    destruct (find_page apos cur (batchSize apos)) as [|d page] eqn:Hpage;
      [apply appends_ret|].
    apply appends_bind.
    + eapply appends_mono; [|apply appends_indexBatch].
      intros [] He; try done. simpl in *.
      eapply Forall_impl; [done|]. intros c. apply command_of_mono.
      intros x Hx. rewrite <- Hpage in Hx. by apply elem_of_find_page in Hx as [? _].
    + intros [err|]; [apply appends_ret|apply IH].
Qed.

(** X14: the index stage writes nothing but the store: whatever happens
    during a run, every command of every bulk call it makes is the
    projected body of a document of the store or an action descriptor of
    type [aposDoc] that carries the identifier of one. *)
Theorem index_writes_only_store (st : state) :
  exists evs,
    trace (index apos st).2 = (trace st ++ evs)%list /\
    Forall (writes_only apos (store apos)) evs.
Proof.
  revert st. change (appends (writes_only apos (store apos)) (index apos)).
  unfold index, verbose.
  repeat (apply appends_bind; [by apply appends_emit|]; intros _).
  destruct (db_count apos); [apply appends_ret|apply appends_nextBatch].
Qed.

Lemma getBulk_Ret_has (d : doc) (cmds : list command) (st st' : state) :
  getLocales apos <> [] ->
  getBulkIndexCommandsForDoc apos d st = (Ret cmds, st') ->
  sent apos d cmds.
Proof.
  intros Hlocales. rewrite getBulk_project. unfold sent.
  destruct (project apos d) as [body| |]; [|done..].
  destruct (truthy (doc_get d "workflowLocale")) eqn:Hl.
  - destruct (doc_get d "workflowLocale") as [| | | |l| | |]; try done.
    simpl.
    destruct (getLocaleIndex apos l st) as [[name| |] st1]; [|done..].
    intros [= <- <-]. split; [exists body|exists name]; set_solver.
  - destruct (mapM _ _ st) as [[names| |] st1] eqn:H1; [|done..].
    intros [= <- <-]. apply mapM_getLocaleIndex_Ret in H1 as [-> _].
    destruct (getLocales apos) as [|l ls]; [done|]. simpl.
    split; [exists body|exists (index_name apos l)]; set_solver.
Qed.

Lemma sent_app_l (d : doc) (cmds cmds' : list command) :
  sent apos d cmds -> sent apos d (cmds ++ cmds').
Proof.
  intros [(body & Hbody & H1) (name & H2)].
  split; [exists body; split; [done|]|exists name]; apply elem_of_app; by left.
Qed.

Lemma sent_app_r (d : doc) (cmds cmds' : list command) :
  sent apos d cmds' -> sent apos d (cmds ++ cmds').
Proof.
  intros [(body & Hbody & H1) (name & H2)].
  split; [exists body; split; [done|]|exists name]; apply elem_of_app; by right.
Qed.

Lemma mapM_getBulk_has (docs : list doc) (bodies : list (list command))
    (st st' : state) (d : doc) :
  getLocales apos <> [] ->
  mapM (getBulkIndexCommandsForDoc apos) docs st = (Ret bodies, st') ->
  d ∈ docs ->
  sent apos d (concat bodies).
Proof.
  intros Hlocales. revert bodies st. induction docs as [|d0 docs IH];
    intros bodies st; simpl.
  - intros _ Hd. by apply elem_of_nil in Hd.
  - unfold bind at 1.
    destruct (getBulkIndexCommandsForDoc apos d0 st) as [[cmds| |] st1] eqn:Hd0;
      [|done..].
    unfold bind at 1.
    destruct (mapM _ docs st1) as [[bodies'| |] st2] eqn:Hrest; [|done..].
    intros [= <- <-] [->|Hd]%elem_of_cons; simpl.
    + apply sent_app_l. by eapply getBulk_Ret_has.
    + apply sent_app_r. by eapply IH.
Qed.

Lemma bulks_app (evs evs' : list event) : bulks (evs ++ evs') = (bulks evs ++ bulks evs')%list.
Proof. apply omap_app. Qed.

Lemma nextBatch_sends (fuel : nat) (cur : string) (reindexed : nat) (st st' : state) :
  NoDup (map doc_id (store apos)) -> getLocales apos <> [] ->
  nextBatch apos fuel cur reindexed st = (Ret None, st') ->
  exists evs,
    trace st' = (trace st ++ evs)%list /\
    forall d, d ∈ remaining apos cur ->
      exists cmds, cmds ∈ bulks evs /\ sent apos d cmds.
Proof.
  intros Hdup Hlocales. revert cur reindexed st.
  induction fuel as [|fuel IH]; intros cur reindexed st H; [done|].
  rewrite nextBatch_S in H. unfold bind at 1 in H. simpl in H.
  destruct (db_find apos cur) as [err|]; [done|].
  pose proof (find_page_length apos cur (batchSize apos)) as Hlen.
  pose proof (batchSize_pos apos) as Hpos.
  destruct (find_page apos cur (batchSize apos)) as [|d0 page] eqn:Hpage.
  - injection H as <-. exists [EvFind cur (batchSize apos)]. split; [done|].
    assert (remaining apos cur = []) as ->
      by (apply length_zero_iff_nil; simpl in Hlen; lia).
    intros d Hd. by apply elem_of_nil in Hd.
  - unfold bind in H.
    pose proof (indexBatch_run (reindexed + length (d0 :: page)) (d0 :: page)
                  (State (indexNamesSeen st)
                     (trace st ++ [EvFind cur (batchSize apos)]))) as Hrun.
    destruct (mapM _ (d0 :: page) _) as [[bodies| |] st1] eqn:Hbodies; [| |done].
    + rewrite Hrun in H. destruct (client_bulk apos _); [done|].
      apply IH in H as (evs & Htr & Hsent).
      destruct (last_id_cons d0 page) as (dl & Hdl & Hid).
      rewrite <- Hpage in Hdl.
      pose proof (remaining_split _ _ _ Hdup Hdl) as Hsplit.
      rewrite Hpage, <- Hid in Hsplit.
      exists ([EvFind cur (batchSize apos);
               EvProgress (reindexed + length (d0 :: page)) (length (store apos));
               EvBulk (BulkArgs (concat bodies) None)] ++ evs)%list.
      simpl in Htr. rewrite Htr, <- !app_assoc. split; [done|].
      intros d Hd. rewrite Hsplit in Hd. rewrite bulks_app.
      apply elem_of_app in Hd as [Hd|Hd].
      * exists (concat bodies). split; [apply elem_of_app; left; by left|].
        by eapply mapM_getBulk_has.
      * destruct (Hsent d Hd) as (body & Hbody & Hsome).
        exists body. split; [apply elem_of_app; by right|done].
    + destruct Hrun as [Hrun _]. by rewrite Hrun in H.
Qed.

(** X15: on a store with distinct identifiers, none of them empty, and
    with at least one locale, an index stage that ends well has sent every
    document: for each document of the store some bulk call of the run
    holds the body that its projection returns and an action descriptor
    with its identifier. *)
Theorem index_sends_every_document (st st' : state) :
  NoDup (map doc_id (store apos)) ->
  Forall (fun d => doc_id d <> EmptyString) (store apos) ->
  getLocales apos <> [] ->
  index apos st = (Ret None, st') ->
  exists evs,
    trace st' = (trace st ++ evs)%list /\
    forall d, d ∈ store apos ->
      exists cmds, cmds ∈ bulks evs /\
        (exists body, project apos d = Ret body /\ CBody body ∈ cmds) /\
        exists name, CIndex name "aposDoc" (doc_id d) ∈ cmds.
Proof.
  intros Hdup Hids Hlocales H. unfold index, verbose, bind, emit in H.
  cbn -[nextBatch] in H. destruct (db_count apos); [done|].
  apply nextBatch_sends in H as (evs & Htr & Hsent); [|done..].
  simpl in Htr. rewrite remaining_all in Hsent by done.
  exists ([EvVerbose "Indexing all documents";
           EvVerbose "Counting docs for progress display"; EvCount] ++ evs)%list.
  rewrite Htr, <- !app_assoc. split; [done|]. intros d Hd.
  destruct (Hsent d Hd) as (cmds & Hcmds & Hsome). by exists cmds.
Qed.

Lemma nextBatch_error (fuel : nat) (cur : string) (reindexed : nat)
    (st st' : state) (err : error) :
  nextBatch apos fuel cur reindexed st = (Ret (Some err), st') ->
  exists evs e,
    trace st' = (trace st ++ evs ++ [e])%list /\
    ((exists c, e = EvFind c (batchSize apos) /\ db_find apos c = Some err) \/
     (exists args, e = EvBulk args /\ args_refresh args = None /\
                   client_bulk apos args = Some err)).
Proof.
  revert cur reindexed st.
  induction fuel as [|fuel IH]; intros cur reindexed st H; [done|].
  rewrite nextBatch_S in H. unfold bind at 1 in H. simpl in H.
  destruct (db_find apos cur) as [err'|] eqn:Hfind.
  - injection H as <- <-. exists [], (EvFind cur (batchSize apos)).
    split; [done|]. left. by exists cur.
  - destruct (find_page apos cur (batchSize apos)) as [|d0 page] eqn:Hpage; [done|].
    unfold bind in H.
    pose proof (indexBatch_run (reindexed + length (d0 :: page)) (d0 :: page)
                  (State (indexNamesSeen st)
                     (trace st ++ [EvFind cur (batchSize apos)]))) as Hrun.
    destruct (mapM _ (d0 :: page) _) as [[bodies| |] st1] eqn:Hbodies; [| |done].
    + rewrite Hrun in H.
      destruct (client_bulk apos (BulkArgs (concat bodies) None)) as [err'|] eqn:Hbulk.
      * injection H as <- <-.
        exists [EvFind cur (batchSize apos);
                EvProgress (reindexed + length (d0 :: page)) (length (store apos))],
               (EvBulk (BulkArgs (concat bodies) None)).
        simpl. rewrite <- !app_assoc. split; [done|]. right.
        by exists (BulkArgs (concat bodies) None).
      * apply IH in H as (evs & e & Htr & He).
        exists ([EvFind cur (batchSize apos);
                 EvProgress (reindexed + length (d0 :: page)) (length (store apos));
                 EvBulk (BulkArgs (concat bodies) None)] ++ evs)%list, e.
        simpl in Htr. rewrite Htr, <- !app_assoc. by split.
    + destruct Hrun as [Hrun _]. by rewrite Hrun in H.
Qed.

(** X16: an index stage that returns an error stops at the call that
    failed: that call (the count, a paged fetch or a bulk write, which
    has no refresh flag) is the last one of the run, and the error
    returned is its answer, unmodified. *)
Theorem index_error_is_last_call (st st' : state) (err : error) :
  index apos st = (Ret (Some err), st') ->
  exists evs e,
    trace st' = (trace st ++ evs ++ [e])%list /\
    (e = EvCount /\ db_count apos = Some err \/
     (exists c, e = EvFind c (batchSize apos) /\ db_find apos c = Some err) \/
     (exists args, e = EvBulk args /\ args_refresh args = None /\
                   client_bulk apos args = Some err)).
Proof.
  intros H. unfold index, verbose, bind, emit in H. cbn -[nextBatch] in H.
  destruct (db_count apos) as [err'|] eqn:Hcount.
  - injection H as <- <-.
    exists [EvVerbose "Indexing all documents";
            EvVerbose "Counting docs for progress display"], EvCount.
    rewrite <- !app_assoc. split; [done|]. by left.
  - apply nextBatch_error in H as (evs & e & Htr & He).
    exists ([EvVerbose "Indexing all documents";
             EvVerbose "Counting docs for progress display"; EvCount] ++ evs)%list, e.
    simpl in Htr. rewrite Htr, <- !app_assoc. split; [done|]. by right.
Qed.

(** The command builder does not look at the trace. *)
Lemma getLocaleIndex_frame (l : string) (s : state) (tr : list event) :
  getLocaleIndex apos l (State (indexNamesSeen s) tr)
  = ((getLocaleIndex apos l s).1,
     State (indexNamesSeen (getLocaleIndex apos l s).2) tr).
Proof.
  unfold getLocaleIndex. simpl.
  destruct (indexNamesSeen s !! _); [|done]. by destruct (negb _ && negb _).
Qed.

Lemma eachM_frame (d : doc) (body : obj) (ls : list string) (acc : list command)
    (s : state) (tr : list event) :
  eachM (push_locale apos d body) ls acc (State (indexNamesSeen s) tr)
  = ((eachM (push_locale apos d body) ls acc s).1,
     State (indexNamesSeen (eachM (push_locale apos d body) ls acc s).2) tr).
Proof.
  revert acc s. induction ls as [|l ls IH]; intros acc s; simpl; [done|].
  unfold bind, push_locale, bind. rewrite getLocaleIndex_frame.
  destruct (getLocaleIndex apos l s) as [[name| |] s1]; simpl; [|done..].
  apply IH.
Qed.

Lemma getBulk_frame (d : doc) (s : state) (tr : list event) :
  getBulkIndexCommandsForDoc apos d (State (indexNamesSeen s) tr)
  = ((getBulkIndexCommandsForDoc apos d s).1,
     State (indexNamesSeen (getBulkIndexCommandsForDoc apos d s).2) tr).
Proof.
  unfold getBulkIndexCommandsForDoc, lift, bind at 1 3 5.
  destruct (project apos d) as [body| |]; [|done..].
  destruct (truthy _).
  - destruct (doc_get d "workflowLocale") as [| | | |l| | |]; try done.
    simpl. unfold bind. rewrite getLocaleIndex_frame.
    by destruct (getLocaleIndex apos l s) as [[name| |] s1].
  - apply eachM_frame.
Qed.

(** X17: the incremental path writes what a reindex would write for the
    document.  When the builder returns commands for it, [docAfterSave]
    makes one bulk call with these commands and a refresh flag, which is
    ["false"] when [elasticsearchDefer] is truthy and ["true"] otherwise,
    and returns the answer of that call; a one-document [indexBatch] from
    the same state makes, after its progress report, one bulk call with
    the same commands and no refresh flag; both leave the same table.
    When the builder raises, both raise the same error and make no bulk
    call. *)
Theorem docAfterSave_as_reindex (d : doc) (defer : value) (reindexed : nat)
    (st : state) :
  match getBulkIndexCommandsForDoc apos d st with
  | (Ret cmds, st1) =>
      let flag := if truthy defer then "false" else "true" in
      docAfterSave apos d defer st =
        (Ret (client_bulk apos (BulkArgs cmds (Some flag))),
         State (indexNamesSeen st1)
               (trace st ++ [EvBulk (BulkArgs cmds (Some flag))])) /\
      indexBatch apos reindexed [d] st =
        (Ret (client_bulk apos (BulkArgs cmds None)),
         State (indexNamesSeen st1)
               (trace st ++ [EvProgress reindexed (length (store apos));
                             EvBulk (BulkArgs cmds None)]))
  | (Throw msg, st1) =>
      docAfterSave apos d defer st = (Throw msg, st1) /\
      trace st1 = trace st /\
      (indexBatch apos reindexed [d] st).1 = Throw msg /\
      indexNamesSeen (indexBatch apos reindexed [d] st).2 = indexNamesSeen st1 /\
      trace (indexBatch apos reindexed [d] st).2 =
        (trace st ++ [EvProgress reindexed (length (store apos))])%list
  | (OutOfFuel, _) => False
  end.
Proof.
  unfold docAfterSave, indexBatch, call, emit. simpl.
  unfold bind, ret. simpl. rewrite getBulk_frame.
  pose proof (emits_nothing (getBulkIndexCommandsForDoc apos d) st
                (emits_getBulk apos _ d)) as Htr.
  pose proof (terminates_getBulk apos d st) as Hterm.
  destruct (getBulkIndexCommandsForDoc apos d st) as [[cmds| |] st1]; simpl in *;
    [| |done].
  - rewrite app_nil_r, Htr. split; [by destruct (truthy defer)|].
    by rewrite <- app_assoc.
  - by rewrite Htr.
Qed.

End IndexStage.

Lemma index_fetches_every_document_witness :
  exists evs,
    trace (index Sample.paged Sample.fresh).2 = (trace Sample.fresh ++ evs)%list /\
    concat (pages Sample.paged (finds evs)) ≡ₚ store Sample.paged.
Proof.
  destruct (index_fetches_every_document Sample.paged Sample.fresh
              (index Sample.paged Sample.fresh).2)
    as (evs & H1 & H2 & _); [by_compute | by_compute | by vm_compute |].
  by exists evs.
Defined.

Lemma indexBatch_all_or_nothing_witness :
  exists bodies,
    trace (indexBatch Sample.paged 1 [Doc "a" []] Sample.fresh).2 =
      (trace Sample.fresh ++
       [EvProgress 1 3; EvBulk (BulkArgs (concat bodies) None)])%list /\
    None = client_bulk Sample.paged (BulkArgs (concat bodies) None).
Proof.
  destruct (indexBatch_all_or_nothing Sample.paged 1 [Doc "a" []] Sample.fresh
              (indexBatch Sample.paged 1 [Doc "a" []] Sample.fresh).2 (Ret None))
    as (_ & _ & H); [by vm_compute|].
  destruct (H None eq_refl) as (bodies & _ & H1 & H2). by exists bodies.
Defined.

Lemma index_sends_every_document_witness :
  exists evs,
    trace (index Sample.paged Sample.fresh).2 = (trace Sample.fresh ++ evs)%list /\
    exists cmds, cmds ∈ bulks evs /\
      exists body, project Sample.paged (Doc "c" [("title", VStr "C")]) = Ret body /\
                   CBody body ∈ cmds.
Proof.
  destruct (index_sends_every_document Sample.paged Sample.fresh
              (index Sample.paged Sample.fresh).2)
    as (evs & H1 & H2); [by_compute | by_compute | done | by vm_compute |].
  exists evs. split; [exact H1|].
  destruct (H2 (Doc "c" [("title", VStr "C")])) as (cmds & Hb & Hc & _);
    [by left|]. by exists cmds.
Defined.

Lemma index_error_is_last_call_witness :
  exists evs e,
    trace (index Demo.unwritable Sample.fresh).2 = (trace Sample.fresh ++ evs ++ [e])%list /\
    (e = EvCount /\ db_count Demo.unwritable = Some "disk full" \/
     (exists c, e = EvFind c (batchSize Demo.unwritable) /\
                db_find Demo.unwritable c = Some "disk full") \/
     (exists args, e = EvBulk args /\ args_refresh args = None /\
                   client_bulk Demo.unwritable args = Some "disk full")).
Proof.
  apply (index_error_is_last_call Demo.unwritable Sample.fresh). by vm_compute.
Defined.

(** A save that is not deferred asks for a refresh. *)
Lemma docAfterSave_as_reindex_witness :
  trace (docAfterSave Sample.titled Sample.hello VUndefined Sample.fresh).2 =
    [EvBulk (BulkArgs
               [CIndex "siteaposdocsen" "aposDoc" "x";
                CBody [("title", VStr "Hello World");
                       ("titleESExact", VStr "Hello World")]]
               (Some "true"))] /\
  trace (indexBatch Sample.titled 1 [Sample.hello] Sample.fresh).2 =
    [EvProgress 1 0;
     EvBulk (BulkArgs
               [CIndex "siteaposdocsen" "aposDoc" "x";
                CBody [("title", VStr "Hello World");
                       ("titleESExact", VStr "Hello World")]]
               None)].
Proof.
  pose proof (docAfterSave_as_reindex Sample.titled Sample.hello VUndefined 1
                Sample.fresh) as H.
  destruct (getBulkIndexCommandsForDoc Sample.titled Sample.hello Sample.fresh)
    as [[cmds| |] st1] eqn:Hcmds; [|by vm_compute in Hcmds|done].
  destruct H as [-> ->]. vm_compute in Hcmds. by injection Hcmds as <- <-.
Defined.

(** ** Draft locales and the analyzer of a locale *)

Lemma toLowerCase_append (a b : string) :
  Str.toLowerCase (a ++ b) = Str.toLowerCase a ++ Str.toLowerCase b.
Proof.
  induction a as [|c a IH]; [done|].
  rewrite append_cons. simpl. by rewrite IH.
Qed.

Lemma keep_append (p : ascii -> bool) (a b : string) :
  Str.keep p (a ++ b) = Str.keep p a ++ Str.keep p b.
Proof.
  induction a as [|c a IH]; [done|].
  rewrite append_cons. simpl. rewrite IH. by destruct (p c).
Qed.

Lemma append_assoc (a b c : string) : (a ++ b) ++ c = a ++ (b ++ c).
Proof.
  induction a as [|x a IH]; [done|]. rewrite !append_cons. by rewrite IH.
Qed.

Lemma strip_draft_suffix (l : string) : Str.strip_draft (l ++ "-draft") = l.
Proof.
  induction l as [|c l IH]; [reflexivity|].
  rewrite append_cons.
  change (Str.strip_draft (String c (l ++ "-draft")))
    with (if String.eqb (String c (l ++ "-draft")) "-draft" then EmptyString
          else String c (Str.strip_draft (l ++ "-draft"))).
  destruct (String.eqb_spec (String c (l ++ "-draft")) "-draft") as [Heq|_].
  - apply (f_equal String.length) in Heq. simpl in Heq.
    rewrite length_append in Heq. simpl in Heq. lia.
  - by rewrite IH.
Qed.

(** X18: a draft locale has an index of its own and the settings of the
    live locale: for a locale [l] that does not itself end in [-draft],
    the settings of [l-draft] are the settings of [l], while the index
    name of [l-draft] is the index name of [l] followed by [draft]. *)
Theorem draft_locale_settings (apos : host) (l : string) :
  Str.strip_draft l = l ->
  getLocaleSettings apos (l ++ "-draft") = getLocaleSettings apos l /\
  index_name apos (l ++ "-draft") = index_name apos l ++ "draft".
Proof.
  intros Hl. split.
  - unfold getLocaleSettings. by rewrite strip_draft_suffix, Hl.
  - unfold index_name, Str.strip_non_az.
    by rewrite toLowerCase_append, keep_append, append_assoc.
Qed.

Lemma draft_locale_settings_witness :
  getLocaleSettings Sample.layered "fr-draft" = getLocaleSettings Sample.layered "fr" /\
  index_name Sample.layered "fr-draft" = "siteaposdocsfrdraft".
Proof. apply (draft_locale_settings Sample.layered "fr"). by vm_compute. Defined.

Lemma merge_value_not_array (objValue : option value) (s : value) :
  isArray s = false ->
  (forall v, objValue = Some v -> isArray v = false) ->
  isArray (merge_value objValue s) = false.
Proof.
  intros Hs Ho. destruct s; try done.
  - destruct objValue as [v|]; [by apply Ho|done].
  - simpl. destruct objValue as [[]|]; try done. by discriminate (Ho _ eq_refl).
Qed.

Lemma lookup_merge_not_array (object source : obj) (k : string) :
  NoDup (Obj.keys source) ->
  (forall v, Obj.lookup object k = Some v -> isArray v = false) ->
  (forall v, Obj.lookup source k = Some v -> isArray v = false) ->
  forall v, Obj.lookup (merge object source) k = Some v -> isArray v = false.
Proof.
  intros Hdup Ho Hs v. rewrite lookup_merge by done.
  destruct (Obj.lookup source k) as [s|]; [|by apply Ho].
  intros [= <-]. apply merge_value_not_array; [by apply Hs|done].
Qed.

(** X19: the analyzer of a locale has the last word: when [analyzers]
    holds a truthy scalar (such as the name of an analyzer) for the locale
    without its [-draft] suffix, and neither the index settings nor the
    settings of the locale (well-formed objects) hold an array under
    [analysis], then [settings.analysis.analyzer] of the locale is that
    value, whatever the other layers say. *)
Theorem locale_analyzer_wins (apos : host) (locale : string) (analyzers : obj)
    (a : value) :
  opt_analyzers (self_options apos) = Some analyzers ->
  Obj.get analyzers (Str.strip_draft locale) = a ->
  truthy a = true -> scalar a = true ->
  (forall o, opt_indexSettings (self_options apos) = Some o ->
     NoDup (Obj.keys o) /\
     forall v, Obj.lookup o "analysis" = Some v -> isArray v = false) ->
  (forall m o, opt_localeIndexSettings (self_options apos) = Some m ->
     assoc m (Str.strip_draft locale) = Some o ->
     NoDup (Obj.keys o) /\
     forall v, Obj.lookup o "analysis" = Some v -> isArray v = false) ->
  exists analysis,
    Obj.lookup (getLocaleSettings apos locale) "analysis" = Some (VObj analysis) /\
    Obj.lookup analysis "analyzer" = Some a.
Proof.
  intros Han <- Htruthy Hscalar Hindex Hlocale.
  unfold getLocaleSettings, opts. rewrite Han, Htruthy.
  set (s1 := merge [] _).
  set (s2 := if truthy (opt_analyzer (self_options apos)) then _ else s1).
  set (s3 := merge s2 _).
  assert (forall v, Obj.lookup s1 "analysis" = Some v -> isArray v = false) as H1.
  { unfold s1. destruct (opt_indexSettings _) as [o|] eqn:Ho; [|done].
    destruct (Hindex o eq_refl) as [Hdup Harr].
    by apply lookup_merge_not_array. }
  assert (forall v, Obj.lookup s2 "analysis" = Some v -> isArray v = false) as H2.
  { unfold s2. destruct (truthy (opt_analyzer (self_options apos))); [|done].
    apply lookup_merge_not_array; [by_compute|done|].
    by intros v [= <-]. }
  assert (forall v, Obj.lookup s3 "analysis" = Some v -> isArray v = false) as H3.
  { unfold s3. destruct (opt_localeIndexSettings _) as [m|] eqn:Hm; simpl; [|done].
    destruct (assoc m _) as [o|] eqn:Ho; [|done].
    destruct (Hlocale m o eq_refl Ho) as [Hdup Harr].
    by apply lookup_merge_not_array. }
  rewrite lookup_merge by by_compute. simpl.
  destruct (Obj.lookup s3 "analysis") as [[| | | | |arr|prev|fn]|] eqn:Hprev;
    try (eexists; split; [reflexivity|];
         rewrite ObjFacts.lookup_set_eq; by rewrite merge_value_scalar).
  by discriminate (H3 _ eq_refl).
Qed.

Lemma locale_analyzer_wins_witness :
  exists analysis,
    Obj.lookup (getLocaleSettings Sample.layered "fr-draft") "analysis"
      = Some (VObj analysis) /\
    Obj.lookup analysis "analyzer" = Some (VStr "french").
Proof.
  apply (locale_analyzer_wins Sample.layered "fr-draft"
           [("fr", VStr "french")] (VStr "french")); try done.
  - intros o [= <-]. split; [by_compute|]. by intros v [= <-].
  - intros m o [= <-]. intros [= <-]. split; [by_compute|]. by intros v [= <-].
Defined.

(** ** Documents that name no usable locale *)

(** X20: two edges of the command builder, for a document whose
    projection returns a body.  A [workflowLocale] that is truthy but not
    a string raises a type error and changes nothing.  With a workflow
    module that has no locales, a document without a locale gets no
    command at all, without any error, and saving it still makes a bulk
    call, with an empty body. *)
Theorem commands_without_locale (apos : host) (d : doc) (body : obj) (st : state) :
  project apos d = Ret body ->
  (truthy (doc_get d "workflowLocale") = true ->
   (forall l, doc_get d "workflowLocale" <> VStr l) ->
   getBulkIndexCommandsForDoc apos d st =
     (Throw "TypeError: locale.toLowerCase is not a function", st)) /\
  (truthy (doc_get d "workflowLocale") = false ->
   getLocales apos = [] ->
   getBulkIndexCommandsForDoc apos d st = (Ret [], st) /\
   forall defer,
     let args := BulkArgs [] (Some (if truthy defer then "false" else "true")) in
     docAfterSave apos d defer st =
       (Ret (client_bulk apos args),
        State (indexNamesSeen st) (trace st ++ [EvBulk args]))).
Proof.
  intros Hbody. split.
  - intros Ht Hl. rewrite getBulk_project, Hbody, Ht.
    destruct (doc_get d "workflowLocale") as [| | | |l| | |]; try done.
    by destruct (Hl l).
  - intros Hf Hnone.
    assert (getBulkIndexCommandsForDoc apos d st = (Ret [], st)) as Hcmds.
    { rewrite (getBulk_fanout apos d body) by done. by rewrite Hnone. }
    split; [done|]. intros defer.
    unfold docAfterSave, call, bind, emit. rewrite Hcmds. simpl.
    by destruct (truthy defer).
Qed.

Lemma commands_without_locale_witness :
  getBulkIndexCommandsForDoc Sample.plain DemoDocs.numbered Sample.fresh =
    (Throw "TypeError: locale.toLowerCase is not a function", Sample.fresh) /\
  getBulkIndexCommandsForDoc DemoDocs.speechless Sample.short_title Sample.fresh =
    (Ret [], Sample.fresh).
Proof.
  split.
  - destruct (commands_without_locale Sample.plain DemoDocs.numbered
                [("title", VUndefined); ("titleESExact", VUndefined);
                 ("tags", VUndefined); ("tagsESExact", VUndefined);
                 ("type", VUndefined); ("typeESExact", VUndefined);
                 ("lowSearchText", VUndefined); ("lowSearchTextESExact", VUndefined);
                 ("highSearchText", VUndefined); ("highSearchTextESExact", VUndefined)]
                Sample.fresh)
      as [H _]; [by vm_compute|].
    apply H; [done|]. by intros l.
  - destruct (commands_without_locale DemoDocs.speechless Sample.short_title
                [("title", VStr "a"); ("titleESExact", VStr "a")]
                Sample.fresh) as [_ H]; [by vm_compute|].
    by destruct H.
Defined.

(** ** A reindex that ends well *)

Lemma creates_app (evs evs' : list event) :
  creates (evs ++ evs') = (creates evs ++ creates evs')%list.
Proof. apply omap_app. Qed.

Lemma creates_other_stage (g : stage) (evs : list event) :
  g <> Create -> Forall (stage_event g) evs -> creates evs = [].
Proof.
  intros Hg. induction 1 as [|e evs He _ IH]; [done|].
  destruct e; try exact IH. by destruct g.
Qed.

Lemma bulks_other_stage (g : stage) (evs : list event) :
  g <> Index -> Forall (stage_event g) evs -> bulks evs = [].
Proof.
  intros Hg. induction 1 as [|e evs He _ IH]; [done|].
  destruct e; try exact IH. by destruct g.
Qed.

Section Complete.

Variable apos : host.

(** X21: a reindex task that ends well has done all of its work: under
    the lock, it has created the index of every locale of [getLocales],
    in order, has sent every document of the store (distinct identifiers,
    none empty, at least one locale) in some bulk call with the body that
    its projection returns and an action descriptor carrying its
    identifier, and its last two calls are the refresh of exactly the
    created indexes and the release of the lock. *)
Theorem reindex_success_is_complete (st st' : state) :
  NoDup (map doc_id (store apos)) ->
  Forall (fun d => doc_id d <> EmptyString) (store apos) ->
  getLocales apos <> [] ->
  reindexTask apos st = (Ret None, st') ->
  exists evs,
    trace st' =
      (trace st ++ [EvVerbose "reindex task launched";
                    EvLock "apostrophe-elasticsearch-reindex"] ++ evs ++
       [EvRefresh (map (index_name apos) (getLocales apos));
        EvUnlock "apostrophe-elasticsearch-reindex"])%list /\
    creates evs = map (index_name apos) (getLocales apos) /\
    forall d, d ∈ store apos ->
      exists cmds, cmds ∈ bulks evs /\
        (exists body, project apos d = Ret body /\ CBody body ∈ cmds) /\
        exists name, CIndex name "aposDoc" (doc_id d) ∈ cmds.
Proof.
  intros Hdup Hids Hlocales H.
  unfold reindexTask, verbose, withLock, lock_name, bind at 1 2, emit in H.
  cbn -[series] in H.
  destruct (lock_acquire apos _); [done|].
  set (s0 := State (indexNamesSeen st)
               ((trace st ++ [EvVerbose "reindex task launched"]) ++
                [EvLock "apostrophe-elasticsearch-reindex"])) in H.
  unfold bind at 1 in H.
  destruct (series _ s0) as [[[err|]| |] s5] eqn:Hseries; try done.
  unfold bind, emit, ret in H. simpl in H. injection H as <-.
  cbn [series] in Hseries. unfold bind at 1 in Hseries.
  destruct (emits_dropIndexes apos s0) as (e1 & Htr1 & He1).
  destruct (dropIndexes apos s0) as [[[err|]| |] s1]; try done.
  unfold bind at 1 in Hseries.
  pose proof (createIndex_series apos (getLocales apos)
                (State (indexNamesSeen s1) (trace s1 ++ [EvVerbose "creating indexes"])))
    as Hcreate.
  unfold createIndexes at 1, eachSeries, verbose, bind at 1, emit in Hseries.
  cbn -[series index refresh] in Hseries.
  destruct (series (map (createIndex apos) (getLocales apos)) _)
    as [[[err|]| |] s2]; try done.
  destruct (Hcreate s2 (Ret None) eq_refl) as (k & _ & Htr2 & _ & Hk & _).
  destruct (Hk eq_refl) as [-> _]. rewrite firstn_all in Htr2. clear Hcreate Hk.
  unfold bind at 1 in Hseries.
  destruct (emits_index apos s2) as (e3 & Htr3 & He3).
  destruct (index apos s2) as [[[err|]| |] s3] eqn:Hindex; try done.
  unfold index, verbose, bind, emit in Hindex. cbn -[nextBatch] in Hindex.
  destruct (db_count apos); [done|].
  apply nextBatch_sends in Hindex as (e3' & Htr3' & Hsent); [|done..].
  rewrite remaining_all in Hsent by done.
  unfold bind at 1 in Hseries.
  unfold refresh at 1, verbose, bind at 1, emit in Hseries. cbn -[mapM] in Hseries.
  unfold bind at 1 in Hseries.
  destruct (mapM (getLocaleIndex apos) (getLocales apos) _) as [[names| |] s4] eqn:Hnames;
    try done.
  apply mapM_getLocaleIndex_Ret in Hnames as [-> Htr4].
  unfold call, bind, emit, ret in Hseries. cbn in Hseries.
  destruct (indices_refresh apos _); [done|]. injection Hseries as <-.
  simpl in *. rewrite Htr4, Htr3, Htr2, Htr1. subst s0. simpl.
  exists (e1 ++ EvVerbose "creating indexes" :: create_events apos (getLocales apos)
             ++ e3 ++ [EvVerbose "refreshing"])%list.
  split; [by rewrite <- !app_assoc; simpl; rewrite <- !app_assoc|]. split.
  - rewrite creates_app, (creates_other_stage Drop e1) by done. simpl.
    change (creates (EvVerbose "creating indexes" :: ?l)) with (creates l).
    rewrite !creates_app, creates_create_events.
    rewrite (creates_other_stage Index e3) by done. simpl. by rewrite app_nil_r.
  - intros d Hd. destruct (Hsent d Hd) as (cmds & Hcmds & Hsome).
    exists cmds. split; [|done].
    assert (e3 = [EvVerbose "Indexing all documents";
                  EvVerbose "Counting docs for progress display"; EvCount] ++ e3')%list
      as ->.
    { apply (app_inv_head (trace s2)). rewrite <- Htr3, Htr3'. simpl.
      by rewrite <- !app_assoc. }
    rewrite !bulks_app. apply elem_of_app. right.
    change (bulks (EvVerbose "creating indexes" :: ?l)) with (bulks l).
    rewrite !bulks_app. apply elem_of_app. right. apply elem_of_app. left.
    apply elem_of_app. by right.
Qed.

End Complete.

Lemma reindex_success_is_complete_witness :
  exists evs,
    trace (reindexTask Sample.paged Sample.fresh).2 =
      (trace Sample.fresh ++ [EvVerbose "reindex task launched";
                              EvLock "apostrophe-elasticsearch-reindex"] ++ evs ++
       [EvRefresh ["siteaposdocsdefault"];
        EvUnlock "apostrophe-elasticsearch-reindex"])%list /\
    creates evs = ["siteaposdocsdefault"].
Proof.
  destruct (reindex_success_is_complete Sample.paged Sample.fresh
              (reindexTask Sample.paged Sample.fresh).2)
    as (evs & H1 & H2 & _); [by_compute | by_compute | done | by vm_compute |].
  assert (map (index_name Sample.paged) (getLocales Sample.paged) =
          ["siteaposdocsdefault"]) as Hnames by (by vm_compute).
  rewrite Hnames in H1, H2. exists evs. exact (conj H1 H2).
Defined.
